(** * A cooperative event loop (src/main.go), embedded and verified

    The Go program keeps two queues and a handler registry in one
    [EventLoop] value that is mutated in place through a pointer.  The
    embedding passes that value explicitly.  Three further pieces of the
    world are made explicit because the code acts on them:

    - standard output, as the list of lines printed so far;
    - the goroutines spawned by [processAsynchronously], each with the
      program point it has reached in the closure body;
    - for [readFile], the file system seen through package [os].

    Handlers have Go type [func(data string) string]; they are embedded
    as total functions on strings, and the nil function value as [None].
    What a handler does besides returning its result (the file system
    for [readFile], the network for [fetchDataFromAPI]) is not threaded
    through the scheduler: [readFile] is embedded on its own, over the
    file system.

    A call by the driver ([on], [dispatch], [run]) is one action of the
    machine, and so is each step of a goroutine; goroutine steps may
    fall anywhere between the driver's calls.  Within a goroutine the
    read and the write of the completed queue are separate steps.

    Every schedule of the machine is an interleaving the program can
    show, but not every interleaving of the program is a schedule: in
    the program a goroutine can also move while [run] is under way.
    The pending queue, the registry and the announcements are touched
    by the driver alone, so what is proved of them over all schedules
    does not depend on this.  The completed queue is shared: what is
    shown about it are interleavings that exist, and [run_cut] adds the
    ones in which goroutines move between the read and the write of
    the drain of [run]. *)

From Stdlib Require Import ZArith DecimalString DecimalZ.
From stdpp Require Import gmap strings list.

Local Open Scope string_scope.
Local Open Scope list_scope.
Local Open Scope nat_scope.

(** ** Data model (main.go, lines 14-37) *)

Record Event := {
  Key : string;
  Data : string;
  IsAsync : bool
}.

(** Go's [EventResult] has fields [Key] and [Result]; the first is
    spelled [ResultKey] here because [Key] already projects [Event]. *)
Record EventResult := {
  ResultKey : string;
  Result : string
}.

(** A value of type [func(data string) string]; [None] is nil. *)
Definition Handler : Type := option (string → string).

Record EventLoop := {
  Events : list Event;
  Handlers : gmap string Handler;
  ProcessedEvents : list EventResult
}.

Definition NewEventLoop : EventLoop :=
  {| Events := []; Handlers := ∅; ProcessedEvents := [] |}.

(** ** Registration and submission (lines 41-49) *)

Definition on (key : string) (fn : Handler) (e : EventLoop) : EventLoop :=
  {| Events := Events e;
     Handlers := <[key := fn]> (Handlers e);
     ProcessedEvents := ProcessedEvents e |}.

Definition dispatch (event : Event) (e : EventLoop) : EventLoop :=
  {| Events := Events e ++ [event];
     Handlers := Handlers e;
     ProcessedEvents := ProcessedEvents e |}.

(** [handler := e.Handlers[key]]: a Go map read yields the zero value,
    the nil function, for a missing key. *)
Definition handler_of (key : string) (e : EventLoop) : Handler :=
  default None (Handlers e !! key).

(** [_, exists := e.Handlers[key]] *)
Definition exists_handler (key : string) (e : EventLoop) : bool :=
  bool_decide (is_Some (Handlers e !! key)).

(** ** The machine: loop, goroutines, standard output *)

(** One constructor per [fmt.Printf] of the scheduler. The elapsed time
    printed at line 66 is wall-clock time and is not part of the model. *)
Inductive Line :=
  | ReceivedEvent (key : string)        (* line 56 *)
  | LoopBlocked                         (* line 66 *)
  | NoHandlerFound (key : string)       (* line 68 *)
  | OutputForEvent (r : EventResult).   (* line 79 *)

(** Program points of the closure started at line 94.  The assignment
    [e.ProcessedEvents = append(e.ProcessedEvents, r)] reads the field,
    builds the longer slice and writes the field back; nothing in the
    source makes the read and the write one indivisible action, so they
    are two steps here. *)
Inductive Goroutine :=
  | GStart (event : Event)
      (* spawned, body not yet entered *)
  | GComputed (event : Event) (result : string)
      (* lines 95-97 done: the handler has returned [result] *)
  | GLoaded (r : EventResult) (seen : list EventResult)
      (* line 98, right-hand side evaluated: [seen] is the queue as read *)
  | GDone.
      (* body left, either after the store or because the handler is nil *)

Record Machine := {
  loop : EventLoop;
  goroutines : list Goroutine;
  stdout : list Line
}.

Definition boot : Machine :=
  {| loop := NewEventLoop; goroutines := []; stdout := [] |}.

Definition with_loop (f : EventLoop → EventLoop) (m : Machine) : Machine :=
  {| loop := f (loop m); goroutines := goroutines m; stdout := stdout m |}.

Definition print (l : Line) (m : Machine) : Machine :=
  {| loop := loop m; goroutines := goroutines m; stdout := stdout m ++ [l] |}.

Definition spawn (g : Goroutine) (m : Machine) : Machine :=
  {| loop := loop m; goroutines := goroutines m ++ [g]; stdout := stdout m |}.

Definition set_Events (evs : list Event) (e : EventLoop) : EventLoop :=
  {| Events := evs; Handlers := Handlers e;
     ProcessedEvents := ProcessedEvents e |}.

Definition set_ProcessedEvents (rs : list EventResult) (e : EventLoop)
  : EventLoop :=
  {| Events := Events e; Handlers := Handlers e; ProcessedEvents := rs |}.

(** ** Execution (lines 51-104) *)

Definition produceOutputFor (processedEvent : EventResult) (m : Machine)
  : Machine :=
  print (OutputForEvent processedEvent) m.

Definition processSynchronously (event : Event) (m : Machine) : Machine :=
  match handler_of (Key event) (loop m) with
  | Some handler =>
      let result := handler (Data event) in
      produceOutputFor {| ResultKey := Key event; Result := result |} m
  | None => m
  end.

Definition processAsynchronously (event : Event) (m : Machine) : Machine :=
  spawn (GStart event) m.

(** First half of [run], lines 52-70: poll and dispatch one event. *)
Definition run_dispatch (m : Machine) : Machine :=
  match Events (loop m) with
  | [] => m
  | event :: rest =>
      let m := with_loop (set_Events rest) m in
      let m := print (ReceivedEvent (Key event)) m in
      if exists_handler (Key event) (loop m) then
        let m :=
          if IsAsync event then processAsynchronously event m
          else processSynchronously event m in
        print LoopBlocked m
      else
        print (NoHandlerFound (Key event)) m
  end.

(** Second half of [run], lines 71-75: drain one completed result. *)
Definition run_drain (m : Machine) : Machine :=
  match ProcessedEvents (loop m) with
  | [] => m
  | processedEvent :: rest =>
      let m := with_loop (set_ProcessedEvents rest) m in
      produceOutputFor processedEvent m
  end.

Definition run (m : Machine) : Machine := run_drain (run_dispatch m).

(** One step of the closure body of [processAsynchronously]; the closure
    captures [e] and [event] and touches nothing else. *)
Definition goroutine_step (g : Goroutine) (e : EventLoop)
  : Goroutine * EventLoop :=
  match g with
  | GStart event =>
      match handler_of (Key event) e with
      | Some handler => (GComputed event (handler (Data event)), e)
      | None => (GDone, e)
      end
  | GComputed event result =>
      (GLoaded {| ResultKey := Key event; Result := result |}
               (ProcessedEvents e), e)
  | GLoaded r seen => (GDone, set_ProcessedEvents (seen ++ [r]) e)
  | GDone => (GDone, e)
  end.

(** Goroutine number [i] of the pool takes one step. *)
Definition go_step (i : nat) (m : Machine) : Machine :=
  match goroutines m !! i with
  | None => m
  | Some g =>
      let '(g', e') := goroutine_step g (loop m) in
      {| loop := e'; goroutines := <[i := g']> (goroutines m);
         stdout := stdout m |}
  end.

(** ** Schedules: the driver's calls interleaved with goroutine steps *)

Inductive Action :=
  | CallOn (key : string) (fn : Handler)
  | CallDispatch (event : Event)
  | CallRun
  | Go (i : nat).

Definition exec_action (a : Action) (m : Machine) : Machine :=
  match a with
  | CallOn key fn => with_loop (on key fn) m
  | CallDispatch event => with_loop (dispatch event) m
  | CallRun => run m
  | Go i => go_step i m
  end.

Fixpoint exec (sched : list Action) (m : Machine) : Machine :=
  match sched with
  | [] => m
  | a :: sched => exec sched (exec_action a m)
  end.

(** ** Observations *)

(** Keys announced at line 56, in the order they were printed. *)
Definition announced (l : Line) : option string :=
  match l with ReceivedEvent key => Some key | _ => None end.

Definition received (m : Machine) : list string := omap announced (stdout m).

Definition dispatch_all (events : list Event) (m : Machine) : Machine :=
  exec (CallDispatch <$> events) m.

Definition is_run (a : Action) : bool :=
  match a with CallRun => true | _ => false end.

Definition is_dispatch (a : Action) : bool :=
  match a with CallDispatch _ => true | _ => false end.

(** Number of calls of [run] in a schedule. *)
Fixpoint runs (sched : list Action) : nat :=
  match sched with
  | [] => 0
  | a :: sched => (if is_run a then 1 else 0) + runs sched
  end.

Definition registers (key : string) (a : Action) : bool :=
  match a with CallOn key' _ => bool_decide (key' = key) | _ => false end.

(** Events handed to [dispatch] along a schedule, in call order. *)
Definition submitted (sched : list Action) : list Event :=
  omap (λ a, match a with CallDispatch event => Some event | _ => None end)
       sched.

(** Results written to the completed queue along a schedule (line 98),
    and results taken out of it (lines 72-73), each in order. *)
Definition stores (a : Action) (m : Machine) : list EventResult :=
  match a with
  | Go i =>
      match goroutines m !! i with
      | Some (GLoaded r _) => [r]
      | _ => []
      end
  | _ => []
  end.

Definition drains (a : Action) (m : Machine) : list EventResult :=
  match a with
  | CallRun => take 1 (ProcessedEvents (loop m))
  | _ => []
  end.

Fixpoint completed (sched : list Action) (m : Machine) : list EventResult :=
  match sched with
  | [] => []
  | a :: sched => stores a m ++ completed sched (exec_action a m)
  end.

Fixpoint drained (sched : list Action) (m : Machine) : list EventResult :=
  match sched with
  | [] => []
  | a :: sched => drains a m ++ drained sched (exec_action a m)
  end.

(** What [run] does with the event at the head of the pending queue. *)
Definition poll (rest : list Event) (event : Event) (m : Machine) : Machine :=
  print (ReceivedEvent (Key event)) (with_loop (set_Events rest) m).

Definition result_of (handler : string → string) (event : Event)
  : EventResult :=
  {| ResultKey := Key event; Result := handler (Data event) |}.

(** What [run] does for the event it polled, by registry entry and mode. *)
Definition settle (rest : list Event) (event : Event) (m : Machine)
  : Machine :=
  match Handlers (loop m) !! Key event with
  | None =>
      (* skipped, with the no-handler line *)
      print (NoHandlerFound (Key event)) (poll rest event m)
  | Some fn =>
      print LoopBlocked
        (if IsAsync event then
           (* handed to one new goroutine *)
           spawn (GStart event) (poll rest event m)
         else
           match fn with
           | Some handler =>
               (* called once, inline, and its result printed *)
               produceOutputFor (result_of handler event) (poll rest event m)
           | None =>
               (* nil handler: nothing is called, nothing is logged *)
               poll rest event m
           end)
  end.

(** The reading of "executed exactly once, or skipped with a no-handler
    log" for the event that [run] takes from the head of the queue. *)
Definition executed_or_skipped (rest : list Event) (event : Event)
    (m : Machine) : Prop :=
  (∃ handler,
      handler_of (Key event) (loop m) = Some handler
      ∧ (run_dispatch m
         = print LoopBlocked
             (produceOutputFor (result_of handler event) (poll rest event m))
         ∨ run_dispatch m
           = print LoopBlocked (spawn (GStart event) (poll rest event m))))
  ∨ NoHandlerFound (Key event) ∈ stdout (run_dispatch m).

(** ** Key generator (lines 151-153) *)

(** The verb [%d] applied to a Go [int]: a minus sign for negative
    numbers, then the decimal digits without leading zeros.  Go's [int]
    is a 64-bit integer; every one of its values is a [Z], and the
    function does no arithmetic on it. *)
Definition format_int (id : Z) : string :=
  NilZero.string_of_int (Z.to_int id).

(** [fmt.Sprintf("%s-%d", base, id)] *)
Definition generateUniqueEventKey (base : string) (id : Z) : string :=
  base +:+ "-" +:+ format_int id.

(** ** The menu of [main] (lines 214-244) *)

(** Handler of menu entry 1, [fmt.Sprintf("Hello! %s", data)]. *)
Definition greet (data : string) : string := "Hello! " +:+ data.

Definition hello (id : Z) (async : bool) : Event :=
  {| Key := generateUniqueEventKey "hello" id;
     Data := "How are you doing today?";
     IsAsync := async |}.

(** Menu entry 1 with the counter at [id]: register, submit, tick. *)
Definition menu_hello (id : Z) (async : bool) : list Action :=
  [CallOn (generateUniqueEventKey "hello" id) (Some greet);
   CallDispatch (hello id async);
   CallRun].

(** Menu entry 4: tick only. *)
Definition menu_output : list Action := [CallRun].

Definition hello_result (id : Z) : EventResult :=
  result_of greet (hello id true).

(** Two asynchronous greetings whose goroutines both read the completed
    queue before either writes it. *)
Definition both_read_first : list Action :=
  menu_hello 0 true ++ menu_hello 1 true
  ++ [Go 0; Go 1; Go 0; Go 1].

Definition overlapping_appends : list Action :=
  both_read_first ++ [Go 0; Go 1].

(** The same steps with each goroutine finishing before the other starts. *)
Definition appends_in_turn : list Action :=
  menu_hello 0 true ++ menu_hello 1 true
  ++ [Go 0; Go 0; Go 0; Go 1; Go 1; Go 1].

(** The second goroutine reads the queue, a tick drains it, and then the
    goroutine writes what it had read plus its own result. *)
Definition append_across_drain : list Action :=
  menu_hello 0 true ++ menu_hello 1 true
  ++ [Go 0; Go 0; Go 0; Go 1; Go 1]
  ++ menu_output ++ [Go 1] ++ menu_output ++ menu_output.

(** A key registered with the nil function, then an event for it. *)
Definition job : Event :=
  {| Key := "job"; Data := "payload"; IsAsync := false |}.

Definition nil_registered : Machine :=
  exec [CallOn "job" None; CallDispatch job] boot.

(** Three events pending and three results completed. *)
Definition three_and_three : Machine :=
  {| loop := {| Events := [hello 0 false; hello 1 true; hello 2 false];
                Handlers := ∅;
                ProcessedEvents :=
                  [hello_result 3; hello_result 4; hello_result 5] |};
     goroutines := [];
     stdout := [] |}.

(** A loop with the greeting registered under its first key. *)
Definition greeter : Machine :=
  exec [CallOn "hello-0" (Some greet)] boot.

(** An event submitted under a key that was never registered. *)
Definition unregistered : Machine :=
  exec [CallDispatch job] boot.

(** A second handler for the same key. *)
Definition shout (data : string) : string := "HELLO! " +:+ data.

(** ** Package [os] as [readFile] uses it *)

Inductive Errno := ENOENT | EACCES | EISDIR | ENOSPC | EEXIST.

Definition strerror (e : Errno) : string :=
  match e with
  | ENOENT => "no such file or directory"
  | EACCES => "permission denied"
  | EISDIR => "is a directory"
  | ENOSPC => "no space left on device"
  | EEXIST => "file exists"
  end.

(** Values of Go's [error] that these calls return: a [*PathError], or
    [os.ErrInvalid] from a method called on a nil [*File]. *)
Inductive error :=
  | PathError (op path : string) (errno : Errno)
  | ErrInvalid.

(** [err.Error()], which is what [%s] prints for an error. *)
Definition Error (err : error) : string :=
  match err with
  | PathError op path errno => op +:+ " " +:+ path +:+ ": " +:+ strerror errno
  | ErrInvalid => "invalid argument"
  end.

(** A flat name space of regular files with permission bits and of
    directories, on a device with [free] bytes left. *)
Inductive Node :=
  | RegularFile (readable writable : bool) (content : string)
  | Directory.

Record FileSystem := {
  nodes : gmap string Node;
  free : nat
}.

(** An open file: a [*os.File] is [Some] of this, or [None] for nil. *)
Record File := {
  name : string;
  offset : nat
}.

(** [os.ReadFile(name)] *)
Definition os_ReadFile (filename : string) (fs : FileSystem)
  : string + error :=
  match nodes fs !! filename with
  | None => inr (PathError "open" filename ENOENT)
  | Some Directory => inr (PathError "read" filename EISDIR)
  | Some (RegularFile readable _ content) =>
      if readable then inl content
      else inr (PathError "open" filename EACCES)
  end.

(** [os.IsExist(err)]: the error says that a file already exists. *)
Definition os_IsExist (err : error) : bool :=
  match err with
  | PathError _ _ EEXIST => true
  | _ => false
  end.

(** [os.Create(name)], that is [OpenFile] with [O_RDWR|O_CREATE|O_TRUNC]
    and mode 0666.  On failure the file returned is nil.  Names are
    entries of the one directory of the flat name space, which exists
    and can be written: the empty name and names under a directory that
    is missing, for which [os.Create] fails, are not told apart. *)
Definition os_Create (filename : string) (fs : FileSystem)
  : option File * option error * FileSystem :=
  let opened := Some {| name := filename; offset := 0 |} in
  match nodes fs !! filename with
  | None =>
      (opened, None,
       {| nodes := <[filename := RegularFile true true ""]> (nodes fs);
          free := free fs |})
  | Some Directory => (None, Some (PathError "open" filename EISDIR), fs)
  | Some (RegularFile readable writable content) =>
      if readable && writable then
        (opened, None,
         {| nodes := <[filename := RegularFile readable writable ""]>
                       (nodes fs);
            free := free fs + String.length content |})
      else (None, Some (PathError "open" filename EACCES), fs)
  end.

(** Content of a file after [s] is written at [offset].  Offsets beyond
    the end of the file do not occur here. *)
Definition write_at (offset : nat) (s content : string) : string :=
  String.substring 0 offset content +:+ s
  +:+ String.substring (offset + String.length s) (String.length content)
        content.

(** [file.WriteString(s)].  A nil receiver yields [ErrInvalid] and no
    panic.  A write that the device has no room for fails with [ENOSPC]
    and writes nothing. *)
Definition File_WriteString (file : option File) (s : string)
    (fs : FileSystem) : option File * option error * FileSystem :=
  match file with
  | None => (None, Some ErrInvalid, fs)
  | Some f =>
      match nodes fs !! name f with
      | Some (RegularFile readable writable content) =>
          let content' := write_at (offset f) s content in
          let growth := String.length content' - String.length content in
          if decide (growth ≤ free fs) then
            (Some {| name := name f; offset := offset f + String.length s |},
             None,
             {| nodes := <[name f := RegularFile readable writable content']>
                           (nodes fs);
                free := free fs - growth |})
          else (file, Some (PathError "write" (name f) ENOSPC), fs)
      | _ => (file, Some (PathError "write" (name f) EISDIR), fs)
      end
  end.

(** [file.Seek(pos, 0)]: position relative to the start of the file. *)
Definition File_Seek (file : option File) (pos : nat)
  : option File * option error :=
  match file with
  | None => (None, Some ErrInvalid)
  | Some f => (Some {| name := name f; offset := pos |}, None)
  end.

(** [io.ReadAll(file)]: everything from the current offset to the end. *)
Definition io_ReadAll (file : option File) (fs : FileSystem)
  : string + error :=
  match file with
  | None => inr ErrInvalid
  | Some f =>
      match nodes fs !! name f with
      | Some (RegularFile _ _ content) =>
          inl (String.substring (offset f) (String.length content) content)
      | _ => inr (PathError "read" (name f) EISDIR)
      end
  end.

(** ** [readFile] (lines 106-127) *)

(** [%v] of a bool, and the line feed. *)
Definition Sprint_bool (b : bool) : string := if b then "true" else "false".

Definition newline : string := String (Ascii.ascii_of_nat 10) EmptyString.

(** The result, the file system afterwards, and what was printed. *)
Definition readFile (filename : string) (fs : FileSystem)
  : string * FileSystem * list string :=
  match os_ReadFile filename fs with
  | inl data => (data, fs, [])
  | inr err =>
      let exists_ := os_IsExist err in
      let out := ["Exists: " +:+ Sprint_bool exists_ +:+ newline] in
      if negb exists_ then
        let '(file, err, fs) := os_Create filename fs in
        (* the error of WriteString is dropped, and the write comes
           before the check of Create's error *)
        let '(file, _, fs) := File_WriteString file "New file created" fs in
        match err with
        | Some err => ("Error creating file: " +:+ Error err, fs, out)
        | None =>
            let '(file, _) := File_Seek file 0 in
            match io_ReadAll file fs with
            | inr err => ("Error reading file: " +:+ Error err, fs, out)
            | inl data => (data, fs, out)
            end
        end
      else ("Error reading file: " +:+ Error err, fs, out)
  end.

(** The contract of the file-content provider: the content of a file
    that can be read; for a name that does not exist, either the
    placeholder, now stored under that name, or an error description;
    an error description in every other case. *)
Definition placeholder : string := "New file created".

Definition error_description (s : string) : bool := String.prefix "Error " s.

Definition provider_contract (filename : string) (fs : FileSystem) : Prop :=
  let '(result, fs', _) := readFile filename fs in
  match nodes fs !! filename with
  | Some (RegularFile true _ content) => result = content ∧ fs' = fs
  | None =>
      (result = placeholder
       ∧ nodes fs' !! filename = Some (RegularFile true true placeholder))
      ∨ error_description result = true
  | _ => error_description result = true
  end.

(** An empty directory on a device that is full. *)
Definition full_disk : FileSystem := {| nodes := ∅; free := 0 |}.

(** ** Transcripts of ticks *)

(** The lines that the first half of [run] prints for an event, given
    the registry it finds. *)
Definition dispatch_lines (e : EventLoop) (event : Event) : list Line :=
  ReceivedEvent (Key event)
  :: (if exists_handler (Key event) e then
        (if IsAsync event then []
         else match handler_of (Key event) e with
              | Some handler => [OutputForEvent (result_of handler event)]
              | None => []
              end)
        ++ [LoopBlocked]
      else [NoHandlerFound (Key event)]).

(** Goroutines started by the first half of [run] for an event. *)
Definition dispatch_spawns (e : EventLoop) (event : Event) : list Goroutine :=
  if exists_handler (Key event) e && IsAsync event then [GStart event]
  else [].

Definition is_on (a : Action) : bool :=
  match a with CallOn _ _ => true | _ => false end.

(** A line that reports no execution: an announcement or a no-handler
    line. *)
Definition idle_line (l : Line) : bool :=
  match l with
  | ReceivedEvent _ | NoHandlerFound _ => true
  | _ => false
  end.

(** A machine in which nothing has been registered or executed. *)
Definition untouched (m : Machine) : Prop :=
  Handlers (loop m) = ∅
  ∧ goroutines m = []
  ∧ ProcessedEvents (loop m) = []
  ∧ forallb idle_line (stdout m) = true.

(** ** The pending queue as the driver's calls shape it *)

Definition is_goroutine_step (a : Action) : bool :=
  match a with Go _ => true | _ => false end.

(** The driver's calls of a schedule, goroutine steps left out. *)
Fixpoint driver_calls (sched : list Action) : list Action :=
  match sched with
  | [] => []
  | a :: sched =>
      if is_goroutine_step a then driver_calls sched
      else a :: driver_calls sched
  end.

Fixpoint pending_after (calls : list Action) (queue : list Event)
  : list Event :=
  match calls with
  | [] => queue
  | CallDispatch event :: calls => pending_after calls (queue ++ [event])
  | CallRun :: calls => pending_after calls (tail queue)
  | _ :: calls => pending_after calls queue
  end.

(** The calls of a pass before its tick. *)
Definition calls_before_tick (calls : list Action) : list Action :=
  removelast calls.

(** Keys passed to [on] along a schedule, in call order. *)
Definition registered_keys (sched : list Action) : list string :=
  omap (λ a, match a with CallOn key _ => Some key | _ => None end) sched.

(** ** [isAsync] and the loop of [main] (lines 147-149 and 155-246) *)

Definition isAsync (choice : string) : bool := String.eqb choice "2".

(** Standard input is the list of lines as
    [strings.TrimSpace] returns them after [reader.ReadString]; once
    the list is used up every read yields the empty string.  What
    [main] prints itself (the menus and the invalid-input lines) is not
    recorded. *)

(** Line 185: Go compares strings byte by byte, as [String.leb] does. *)
Definition valid_choice (usersChoice : string) : bool :=
  negb (String.eqb usersChoice "")
  && (String.leb "1" usersChoice && String.leb usersChoice "5").

(** Line 206. *)
Definition valid_mode (operationType : string) : bool :=
  negb (String.eqb operationType "")
  && (String.eqb operationType "1" || String.eqb operationType "2").

(** The loops at lines 174-189 and 197-210: read until a line passes.
    The result is that line, the input left, and the number of lines
    turned down.  [None] when the input runs out first: from then on
    the empty string is read and turned down without end. *)
Fixpoint ask (valid : string → bool) (input : list string)
  : option (string * list string * nat) :=
  match input with
  | [] => None
  | line :: input =>
      if valid line then Some (line, input, 0)
      else
        match ask valid input with
        | Some (answer, rest, turned_down) =>
            Some (answer, rest, S turned_down)
        | None => None
        end
  end.

(** [eventID++] on a Go [int]: 64 bits, two's complement. *)
Definition int_wrap (z : Z) : Z := ((z + 2 ^ 63) mod 2 ^ 64 - 2 ^ 63)%Z.

Definition increment (eventID : Z) : Z := int_wrap (eventID + 1).

Section Main.

(** [utils.readFile] and [utils.fetchDataFromAPI], registered by menu
    entries 2 and 3, enter only as the values handed to [on]. *)
Variable utils_readFile utils_fetchDataFromAPI : string → string.

(** The body shared by cases "1", "2" and "3" of the switch. *)
Definition submit (base data : string) (fn : string → string)
    (isAsync : bool) (eventID : Z) : list Action :=
  let uniqueEventKey := generateUniqueEventKey base eventID in
  [CallOn uniqueEventKey (Some fn);
   CallDispatch
     {| Key := uniqueEventKey; Data := data; IsAsync := isAsync |}].

(** The switch at lines 214-243: the calls made and the counter after. *)
Definition menu (usersChoice : string) (isAsync : bool) (eventID : Z)
  : list Action * Z :=
  if String.eqb usersChoice "1" then
    (submit "hello" "How are you doing today?" greet isAsync eventID,
     increment eventID)
  else if String.eqb usersChoice "2" then
    (submit "read-file" "hello.txt" utils_readFile isAsync eventID,
     increment eventID)
  else if String.eqb usersChoice "3" then
    (submit "fetch-from-api" "2" utils_fetchDataFromAPI isAsync eventID,
     increment eventID)
  else ([], eventID).

(** One pass through the outer loop. *)
Inductive Turn :=
  | Ticked (calls : list Action) (eventID : Z) (input : list string)
  | Exited (input : list string)
  | Starved.

Definition iteration (eventID : Z) (input : list string) : Turn :=
  match ask valid_choice input with
  | None => Starved
  | Some (usersChoice, input, _) =>
      if String.eqb usersChoice "5" then Exited input
      else
        let mode :=
          if negb (String.eqb usersChoice "4") then ask valid_mode input
          else Some ("", input, 0) in
        match mode with
        | None => Starved
        | Some (operationType, input, _) =>
            let '(calls, eventID) :=
              menu usersChoice (isAsync operationType) eventID in
            Ticked (calls ++ [CallRun]) eventID input
        end
  end.

(** How a run of [main] ends: by choice 5, by spinning on an input that
    has run out, or not within the passes counted. *)
Inductive Ending := ByExit | BySpinning | Unfinished.

(** The calls the driver makes in at most [passes] passes of the outer
    loop, and how it ended. *)
Fixpoint session (passes : nat) (eventID : Z) (input : list string)
  : list Action * Ending :=
  match passes with
  | 0 => ([], Unfinished)
  | S passes =>
      match iteration eventID input with
      | Ticked calls eventID input =>
          let '(later, ending) := session passes eventID input in
          (calls ++ later, ending)
      | Exited _ => ([], ByExit)
      | Starved => ([], BySpinning)
      end
  end.

(** [main]: the counter starts at 0; every pass that ticks uses up at
    least one line, so one pass more than there are lines is enough. *)
Definition main (input : list string) : list Action * Ending :=
  session (S (length input)) 0 input.

End Main.

(** Lines printed by [n] calls of [run] in a row, and goroutines started
    by them, from a registry, a pending queue and a completed queue. *)
Fixpoint ticks_lines (e : EventLoop) (n : nat) (pending : list Event)
    (results : list EventResult) : list Line :=
  match n with
  | 0 => []
  | S n =>
      concat (dispatch_lines e <$> take 1 pending)
      ++ (OutputForEvent <$> take 1 results)
      ++ ticks_lines e n (tail pending) (tail results)
  end.

(** ** The drain of [run] in two steps *)

(** Lines 71-73 read [e.ProcessedEvents] (its length, its first element,
    its tail) and then assign the tail to it.  [drain_read] is what the
    driver holds after the reads; [drain_write] is the assignment at
    line 73 and the output at line 74. *)
Definition drain_read (m : Machine)
  : option (EventResult * list EventResult) :=
  match ProcessedEvents (loop m) with
  | [] => None
  | processedEvent :: rest => Some (processedEvent, rest)
  end.

Definition drain_write (read : EventResult * list EventResult)
    (m : Machine) : Machine :=
  produceOutputFor read.1 (with_loop (set_ProcessedEvents read.2) m).

(** A call of [run] during which the goroutines numbered in [during]
    take one step each, in that order, after the drain has read the
    queue and before it writes it. *)
Definition run_cut (during : list nat) (m : Machine) : Machine :=
  let m := run_dispatch m in
  match drain_read m with
  | None => m
  | Some read => drain_write read (exec (Go <$> during) m)
  end.

(** How often a result occurs in a list of results. *)
Global Instance EventResult_eq_dec : EqDecision EventResult.
Proof. solve_decision. Defined.

Definition times (r : EventResult) (rs : list EventResult) : nat :=
  count_occ EventResult_eq_dec rs r.

(** Two asynchronous greetings: the goroutine of the first has appended
    its result, the goroutine of the second has its result in hand. *)
Definition second_about_to_append : list Action :=
  menu_hello 0 true ++ menu_hello 1 true ++ [Go 0; Go 0; Go 0; Go 1].

(** A call of [on] that passes a function, not nil. *)
Definition registers_handler (a : Action) : bool :=
  match a with CallOn _ None => false | _ => true end.

(** ** Basic facts about [run] and goroutine steps *)

Lemma received_print l m :
  received (print l m) = received m ++ option_list (announced l).
Proof.
  unfold received, print. simpl stdout. rewrite omap_app.
  simpl. by destruct (announced l).
Qed.

Lemma received_spawn g m : received (spawn g m) = received m.
Proof. done. Qed.

Lemma received_with_loop f m : received (with_loop f m) = received m.
Proof. done. Qed.

Lemma received_processSynchronously event m :
  received (processSynchronously event m) = received m.
Proof.
  unfold processSynchronously, produceOutputFor.
  destruct (handler_of _ _); [|done].
  by rewrite received_print, app_nil_r.
Qed.

Section RunFacts.
Variable m : Machine.

Lemma run_dispatch_Handlers :
  Handlers (loop (run_dispatch m)) = Handlers (loop m).
Proof.
  unfold run_dispatch. destruct (Events (loop m)) as [|event rest]; [done|].
  cbn. destruct (exists_handler _ _); [|done].
  destruct (IsAsync event); [done|].
  unfold processSynchronously. cbn. by destruct (handler_of _ _).
Qed.

Lemma run_dispatch_ProcessedEvents :
  ProcessedEvents (loop (run_dispatch m)) = ProcessedEvents (loop m).
Proof.
  unfold run_dispatch. destruct (Events (loop m)) as [|event rest]; [done|].
  cbn. destruct (exists_handler _ _); [|done].
  destruct (IsAsync event); [done|].
  unfold processSynchronously. cbn. by destruct (handler_of _ _).
Qed.

Lemma run_dispatch_Events :
  Events (loop (run_dispatch m)) = tail (Events (loop m)).
Proof.
  unfold run_dispatch. destruct (Events (loop m)) as [|event rest] eqn:E.
  - by rewrite E.
  - cbn. destruct (exists_handler _ _); [|done].
    destruct (IsAsync event); [done|].
    unfold processSynchronously. cbn. by destruct (handler_of _ _).
Qed.

Lemma run_dispatch_received :
  received (run_dispatch m)
  = received m ++ (Key <$> take 1 (Events (loop m))).
Proof.
  unfold run_dispatch.
  destruct (Events (loop m)) as [|event rest].
  - by rewrite app_nil_r.
  - cbv zeta. destruct (exists_handler _ _).
    + destruct (IsAsync event).
      * unfold processAsynchronously.
        rewrite received_print, received_spawn, received_print.
        simpl. by rewrite app_nil_r.
      * rewrite received_print, received_processSynchronously,
          received_print.
        simpl. by rewrite app_nil_r.
    + rewrite !received_print. simpl. by rewrite app_nil_r.
Qed.

Lemma run_drain_Events : Events (loop (run_drain m)) = Events (loop m).
Proof. unfold run_drain. by destruct (ProcessedEvents (loop m)). Qed.

Lemma run_drain_Handlers : Handlers (loop (run_drain m)) = Handlers (loop m).
Proof. unfold run_drain. by destruct (ProcessedEvents (loop m)). Qed.

Lemma run_drain_goroutines : goroutines (run_drain m) = goroutines m.
Proof. unfold run_drain. by destruct (ProcessedEvents (loop m)). Qed.

Lemma run_drain_ProcessedEvents :
  ProcessedEvents (loop (run_drain m)) = tail (ProcessedEvents (loop m)).
Proof.
  unfold run_drain. by destruct (ProcessedEvents (loop m)) eqn:E; [rewrite E|].
Qed.

Lemma run_drain_stdout :
  stdout (run_drain m)
  = stdout m ++ (OutputForEvent <$> take 1 (ProcessedEvents (loop m))).
Proof.
  unfold run_drain. destruct (ProcessedEvents (loop m)); simpl.
  - by rewrite app_nil_r.
  - done.
Qed.

Lemma run_drain_received : received (run_drain m) = received m.
Proof.
  unfold received. rewrite run_drain_stdout, omap_app.
  destruct (ProcessedEvents (loop m)); simpl; by rewrite app_nil_r.
Qed.

End RunFacts.

Lemma run_Events m : Events (loop (run m)) = tail (Events (loop m)).
Proof. unfold run. by rewrite run_drain_Events, run_dispatch_Events. Qed.

Lemma run_ProcessedEvents m :
  ProcessedEvents (loop (run m)) = tail (ProcessedEvents (loop m)).
Proof.
  unfold run. by rewrite run_drain_ProcessedEvents, run_dispatch_ProcessedEvents.
Qed.

Lemma run_Handlers m : Handlers (loop (run m)) = Handlers (loop m).
Proof. unfold run. by rewrite run_drain_Handlers, run_dispatch_Handlers. Qed.

Lemma run_received m :
  received (run m) = received m ++ (Key <$> take 1 (Events (loop m))).
Proof. unfold run. by rewrite run_drain_received, run_dispatch_received. Qed.

Lemma go_step_loop_frame i m :
  Events (loop (go_step i m)) = Events (loop m)
  ∧ Handlers (loop (go_step i m)) = Handlers (loop m)
  ∧ stdout (go_step i m) = stdout m.
Proof.
  unfold go_step. destruct (goroutines m !! i) as [g|]; [|done].
  destruct g as [event|event result|r seen|]; simpl; try done.
  by destruct (handler_of _ _).
Qed.

(** ** Schedules without submissions *)

Lemma dispatch_all_Events events m :
  Events (loop (dispatch_all events m)) = Events (loop m) ++ events.
Proof.
  unfold dispatch_all. revert m.
  induction events as [|event events IH]; intros m; simpl.
  - by rewrite app_nil_r.
  - rewrite IH. simpl. by rewrite <- app_assoc.
Qed.

Lemma dispatch_all_received events m :
  received (dispatch_all events m) = received m.
Proof.
  unfold dispatch_all. revert m.
  induction events as [|event events IH]; intros m; simpl; [done|].
  by rewrite IH.
Qed.

Lemma go_step_received i m : received (go_step i m) = received m.
Proof. unfold received. by rewrite (proj2 (proj2 (go_step_loop_frame i m))). Qed.

Lemma runs_cons a sched :
  runs (a :: sched) = (if is_run a then S (runs sched) else runs sched).
Proof. simpl. by destruct (is_run a). Qed.

Lemma exec_without_dispatch sched : ∀ m,
  forallb (λ a, negb (is_dispatch a)) sched = true →
  Events (loop (exec sched m)) = drop (runs sched) (Events (loop m))
  ∧ received (exec sched m)
    = received m ++ (Key <$> take (runs sched) (Events (loop m))).
Proof.
  induction sched as [|a sched IH]; intros m Hno.
  - simpl. by rewrite app_nil_r.
  - simpl in Hno. apply andb_prop in Hno as [Ha Hno].
    destruct (IH (exec_action a m) Hno) as [IHq IHr].
    simpl exec. rewrite IHq, IHr, runs_cons.
    destruct a as [key fn|event| |i]; simpl in *; try done.
    + rewrite run_Events, run_received.
      destruct (Events (loop m)) as [|event rest]; simpl.
      * by rewrite !drop_nil, !take_nil, app_nil_r.
      * by rewrite <- app_assoc.
    + destruct (go_step_loop_frame i m) as (-> & _ & _).
      by rewrite go_step_received.
Qed.

(** C1. After events E1..En have been submitted to a loop whose pending
    queue was empty, any continuation that submits nothing more and calls
    [run] k times (with goroutine steps and registrations in between at
    will) has announced exactly the keys of E1..Ek, in that order, and
    left Ek+1..En pending, so that the next call takes Ek+1: dispatch is
    first-in first-out, one event per call, whatever the [IsAsync] flags. *)
Theorem fifo_dispatch (events : list Event) (sched : list Action)
    (m : Machine) :
  Events (loop m) = [] →
  forallb (λ a, negb (is_dispatch a)) sched = true →
  let m' := exec sched (dispatch_all events m) in
  received m' = received m ++ (Key <$> take (runs sched) events)
  ∧ Events (loop m') = drop (runs sched) events
  ∧ head (Events (loop m')) = events !! runs sched.
Proof.
  intros Hempty Hno m'. subst m'.
  destruct (exec_without_dispatch sched (dispatch_all events m) Hno)
    as [Hq Hr].
  rewrite dispatch_all_Events, Hempty in Hq, Hr. simpl in Hq, Hr.
  rewrite dispatch_all_received in Hr.
  split; [done|]. split; [done|].
  by rewrite Hq, head_lookup, lookup_drop, Nat.add_0_r.
Qed.

(** C2. One call of [run] takes the head off the pending queue and the
    head off the completed queue and nothing more, and starts at most one
    goroutine; with three entries in each queue, two are left in each. *)
Theorem run_at_most_one (m : Machine) :
  Events (loop (run m)) = tail (Events (loop m))
  ∧ ProcessedEvents (loop (run m)) = tail (ProcessedEvents (loop m))
  ∧ length (goroutines (run m)) ≤ S (length (goroutines m))
  ∧ (length (Events (loop m)) = 3 →
     length (ProcessedEvents (loop m)) = 3 →
     length (Events (loop (run m))) = 2
     ∧ length (ProcessedEvents (loop (run m))) = 2).
Proof.
  rewrite run_Events, run_ProcessedEvents.
  split; [done|]. split; [done|]. split.
  - unfold run. rewrite run_drain_goroutines. unfold run_dispatch.
    destruct (Events (loop m)) as [|event rest]; [lia|].
    cbv zeta. destruct (exists_handler _ _); [|simpl; lia].
    destruct (IsAsync event); simpl.
    + rewrite length_app. simpl. lia.
    + unfold processSynchronously. destruct (handler_of _ _); simpl; lia.
  - intros He Hp.
    destruct (Events (loop m)); [done|].
    destruct (ProcessedEvents (loop m)); [done|].
    simpl in *. lia.
Qed.

(** ** The fate of the polled event *)

Lemma exists_handler_poll key rest event m :
  exists_handler key (loop (poll rest event m)) = exists_handler key (loop m).
Proof. done. Qed.

Lemma handler_of_poll key rest event m :
  handler_of key (loop (poll rest event m)) = handler_of key (loop m).
Proof. done. Qed.

Lemma run_dispatch_unregistered event rest m :
  Events (loop m) = event :: rest →
  Handlers (loop m) !! Key event = None →
  run_dispatch m = print (NoHandlerFound (Key event)) (poll rest event m).
Proof.
  intros HE HH. unfold run_dispatch. rewrite HE. cbv zeta.
  fold (poll rest event m). rewrite exists_handler_poll.
  unfold exists_handler. rewrite HH.
  rewrite bool_decide_eq_false_2; [done|]. by intros [? ?].
Qed.

Lemma run_dispatch_registered event rest fn m :
  Events (loop m) = event :: rest →
  Handlers (loop m) !! Key event = Some fn →
  run_dispatch m
  = print LoopBlocked
      (if IsAsync event then processAsynchronously event (poll rest event m)
       else processSynchronously event (poll rest event m)).
Proof.
  intros HE HH. unfold run_dispatch. rewrite HE. cbv zeta.
  fold (poll rest event m). rewrite exists_handler_poll.
  unfold exists_handler. rewrite HH.
  rewrite bool_decide_eq_true_2; [done|]. by eexists.
Qed.

Lemma processSynchronously_handler event handler m :
  Handlers (loop m) !! Key event = Some (Some handler) →
  processSynchronously event m
  = produceOutputFor (result_of handler event) m.
Proof.
  intros HH. unfold processSynchronously, handler_of. by rewrite HH.
Qed.

Lemma processSynchronously_nil event m :
  Handlers (loop m) !! Key event = Some None →
  processSynchronously event m = m.
Proof.
  intros HH. unfold processSynchronously, handler_of. by rewrite HH.
Qed.

(** C4. When the event at the head of the pending queue carries a key
    that is not in the registry, [run] returns (it is a total function),
    takes the event off the queue, prints the announcement and the
    no-handler line, and produces no result for it: the only output line
    that may follow is the drain of a result that was already in the
    completed queue, nothing is added to that queue and no goroutine is
    started.  In particular this is what the call of [run] that follows
    the submission of such an event to an empty queue does. *)
Theorem no_handler_no_crash (event : Event) (rest : list Event)
    (m : Machine) :
  Events (loop m) = event :: rest →
  Handlers (loop m) !! Key event = None →
  Events (loop (run m)) = rest
  ∧ stdout (run m)
    = stdout m ++ [ReceivedEvent (Key event); NoHandlerFound (Key event)]
      ++ (OutputForEvent <$> take 1 (ProcessedEvents (loop m)))
  ∧ ProcessedEvents (loop (run m)) = tail (ProcessedEvents (loop m))
  ∧ goroutines (run m) = goroutines m
  ∧ Handlers (loop (run m)) = Handlers (loop m).
Proof.
  intros HE HH.
  rewrite run_Events, run_ProcessedEvents, run_Handlers, HE.
  unfold run. rewrite run_drain_stdout, run_drain_goroutines.
  rewrite (run_dispatch_unregistered event rest m HE HH). simpl.
  by rewrite <- !app_assoc.
Qed.

(** C10. With both queues empty [run] changes nothing at all: registry,
    queues, goroutines and standard output are what they were. *)
Theorem run_idle (m : Machine) :
  Events (loop m) = [] →
  ProcessedEvents (loop m) = [] →
  run m = m.
Proof.
  intros HE HP. unfold run, run_dispatch. rewrite HE.
  unfold run_drain. by rewrite HP.
Qed.

Lemma go_step_last pool g e out :
  go_step (length pool) {| loop := e; goroutines := pool ++ [g]; stdout := out |}
  = {| loop := (goroutine_step g e).2;
       goroutines := pool ++ [(goroutine_step g e).1];
       stdout := out |}.
Proof.
  unfold go_step. simpl.
  rewrite lookup_app_r, Nat.sub_diag by lia. simpl.
  destruct (goroutine_step g e) as [g' e']. simpl.
  by rewrite (insert_app_r_alt _ _ (length pool)), Nat.sub_diag by lia.
Qed.

(** C3. For an event whose key is registered with a handler, the
    synchronous path prints the result and leaves the completed queue
    and the goroutine pool alone; the asynchronous path prints nothing
    and only starts a goroutine, and that goroutine, run through its
    body, appends the same result to the completed queue and still
    prints nothing. *)
Theorem sync_or_async_never_both (event : Event) (handler : string → string)
    (m : Machine) :
  Handlers (loop m) !! Key event = Some (Some handler) →
  let r := result_of handler event in
  let ms := processSynchronously event m in
  let ma := processAsynchronously event m in
  let i := length (goroutines m) in
  let ma' := go_step i (go_step i (go_step i ma)) in
  (stdout ms = stdout m ++ [OutputForEvent r]
   ∧ loop ms = loop m
   ∧ goroutines ms = goroutines m)
  ∧ (stdout ma = stdout m
     ∧ loop ma = loop m
     ∧ goroutines ma = goroutines m ++ [GStart event])
  ∧ (stdout ma' = stdout m
     ∧ ProcessedEvents (loop ma') = ProcessedEvents (loop m) ++ [r]
     ∧ Events (loop ma') = Events (loop m)
     ∧ Handlers (loop ma') = Handlers (loop m)
     ∧ goroutines ma' = goroutines m ++ [GDone]).
Proof.
  intros HH r ms ma i ma'. split; [|split].
  - subst ms. by rewrite (processSynchronously_handler _ _ _ HH).
  - done.
  - subst ma' ma i. unfold processAsynchronously, spawn.
    rewrite !go_step_last. simpl.
    unfold handler_of. by rewrite HH.
Qed.

(** ** The registry along a schedule *)

Lemma exec_action_Handlers_other key a m :
  registers key a = false →
  Handlers (loop (exec_action a m)) !! key = Handlers (loop m) !! key.
Proof.
  destruct a as [key' fn|event| |i]; simpl; intros Hreg.
  - apply bool_decide_eq_false in Hreg. by rewrite lookup_insert_ne.
  - done.
  - by rewrite run_Handlers.
  - by destruct (go_step_loop_frame i m) as (_ & -> & _).
Qed.

Lemma exec_Handlers_other key sched : ∀ m,
  forallb (λ a, negb (registers key a)) sched = true →
  Handlers (loop (exec sched m)) !! key = Handlers (loop m) !! key.
Proof.
  induction sched as [|a sched IH]; intros m Hno; [done|].
  simpl in Hno. apply andb_prop in Hno as [Ha Hno]. simpl.
  rewrite IH by done. apply exec_action_Handlers_other.
  by apply negb_true_iff.
Qed.

(** C6. Registering H2 under a key that already holds H1 succeeds without
    any output and leaves the loop as if H1 had never been registered;
    from then on, until the key is registered again, whatever else
    happens, every execution of an event with that key calls H2: the
    lookup finds H2, the synchronous path prints H2's result (also when
    reached through [run]), and a goroutine entering its body computes
    H2's result. *)
Theorem registry_overwrite (key : string) (h1 : Handler)
    (h2 : string → string) (m : Machine) :
  let m2 := with_loop (on key (Some h2)) (with_loop (on key h1) m) in
  m2 = with_loop (on key (Some h2)) m
  ∧ stdout m2 = stdout m
  ∧ ∀ (sched : list Action) (event : Event),
      Key event = key →
      forallb (λ a, negb (registers key a)) sched = true →
      let m' := exec sched m2 in
      handler_of key (loop m') = Some h2
      ∧ processSynchronously event m'
        = produceOutputFor (result_of h2 event) m'
      ∧ goroutine_step (GStart event) (loop m')
        = (GComputed event (h2 (Data event)), loop m')
      ∧ ∀ rest,
          Events (loop m') = event :: rest →
          IsAsync event = false →
          run_dispatch m'
          = print LoopBlocked
              (produceOutputFor (result_of h2 event) (poll rest event m')).
Proof.
  intros m2. split; [|split; [done|]].
  - subst m2. unfold with_loop, on. simpl. by rewrite insert_insert_eq.
  - intros sched event Hkey Hno m'.
    assert (Handlers (loop m') !! key = Some (Some h2)) as HH.
    { subst m'. rewrite exec_Handlers_other by done.
      subst m2. simpl. by rewrite lookup_insert_eq. }
    subst key. split; [|split; [|split]].
    + unfold handler_of. by rewrite HH.
    + by apply processSynchronously_handler.
    + simpl. unfold handler_of. by rewrite HH.
    + intros rest HE Hsync.
      rewrite (run_dispatch_registered event rest (Some h2) m' HE HH), Hsync.
      by rewrite (processSynchronously_handler event h2).
Qed.

(** ** Every polled event is settled once *)

Lemma run_dispatch_settle event rest m :
  Events (loop m) = event :: rest →
  run_dispatch m = settle rest event m.
Proof.
  intros HE. unfold settle.
  destruct (Handlers (loop m) !! Key event) as [fn|] eqn:HH.
  - rewrite (run_dispatch_registered event rest fn m HE HH).
    destruct (IsAsync event); [done|]. destruct fn as [handler|].
    + by rewrite (processSynchronously_handler event handler).
    + by rewrite processSynchronously_nil.
  - by apply run_dispatch_unregistered.
Qed.

(** Nothing but [dispatch] puts an event into the pending queue: the
    queue is always what is left of the initial queue and the
    submissions after some number of polls. *)
Lemma pending_is_suffix sched : ∀ m,
  ∃ n, n ≤ runs sched
       ∧ Events (loop (exec sched m))
         = drop n (Events (loop m) ++ submitted sched).
Proof.
  induction sched as [|a sched IH]; intros m.
  - exists 0. simpl. by rewrite app_nil_r.
  - destruct (IH (exec_action a m)) as (n & Hn & Hq). simpl exec.
    rewrite Hq. destruct a as [key fn|event| |i]; simpl.
    + by exists n.
    + exists n. by rewrite <- app_assoc.
    + rewrite run_Events. destruct (Events (loop m)) as [|event rest].
      * exists n. split; [lia|done].
      * exists (S n). split; [lia|done].
    + exists n. by destruct (go_step_loop_frame i m) as (-> & _ & _).
Qed.

(** Unless the nil function is registered under its key, the event that
    [run] takes from the pending queue is executed once, inline or by
    one new goroutine, or skipped with the no-handler line. *)
Lemma polled_event_executed_or_skipped event rest m :
  Events (loop m) = event :: rest →
  Handlers (loop m) !! Key event ≠ Some None →
  executed_or_skipped rest event m.
Proof.
  intros HE Hnil. unfold executed_or_skipped.
  rewrite (run_dispatch_settle event rest m HE). unfold settle, handler_of.
  destruct (Handlers (loop m) !! Key event) as [[handler|]|]; [|done|].
  - left. exists handler. split; [done|].
    destruct (IsAsync event); [by right|by left].
  - right. unfold print. simpl. set_solver.
Qed.

(** ** One step of a goroutine of the pool *)

Lemma go_step_lookup i m g :
  goroutines m !! i = Some g →
  go_step i m
  = {| loop := (goroutine_step g (loop m)).2;
       goroutines := <[i := (goroutine_step g (loop m)).1]> (goroutines m);
       stdout := stdout m |}.
Proof.
  intros Hi. unfold go_step. rewrite Hi.
  by destruct (goroutine_step g (loop m)).
Qed.

(** With the nil function registered under its key, which [on] accepts
    and no call in [main] does, the event is taken off the pending
    queue and then neither executed nor skipped with a no-handler
    line. *)
Lemma nil_handler_neither_executed_nor_logged :
  Events (loop nil_registered) = [job]
  ∧ Events (loop (run nil_registered)) = []
  ∧ stdout (run nil_registered) = [ReceivedEvent "job"; LoopBlocked]
  ∧ goroutines (run nil_registered) = []
  ∧ ProcessedEvents (loop (run nil_registered)) = []
  ∧ ¬ executed_or_skipped [] job nil_registered.
Proof.
  repeat split; try reflexivity.
  intros [(handler & Hh & _)|Hin].
  - vm_compute in Hh. discriminate.
  - change (stdout (run_dispatch nil_registered))
      with [ReceivedEvent "job"; LoopBlocked] in Hin.
    rewrite !elem_of_cons, elem_of_nil in Hin.
    destruct Hin as [?|[?|[]]]; discriminate.
Qed.

(** ** Appends that are cut into *)

(** From any state: when two goroutines that have their results both
    read the completed queue before either writes it, the queue ends up
    with the result of the one that writes last, and the other result
    is gone. *)
Lemma overlapping_appends_lose_one (m : Machine) (i j : nat)
    (ei ej : Event) (ri rj : string) :
  i ≠ j →
  goroutines m !! i = Some (GComputed ei ri) →
  goroutines m !! j = Some (GComputed ej rj) →
  ProcessedEvents (loop (exec [Go i; Go j; Go i; Go j] m))
  = ProcessedEvents (loop m) ++ [{| ResultKey := Key ej; Result := rj |}].
Proof.
  intros Hne Hi Hj. cbn [exec exec_action].
  pose proof (lookup_lt_Some _ _ _ Hi) as Hlti.
  pose proof (lookup_lt_Some _ _ _ Hj) as Hltj.
  remember (go_step i m) as m1 eqn:E1.
  rewrite (go_step_lookup i m _ Hi) in E1. cbn [goroutine_step fst snd] in E1.
  remember (go_step j m1) as m2 eqn:E2.
  rewrite (go_step_lookup j m1 (GComputed ej rj)) in E2
    by (subst m1; cbn [goroutines]; by rewrite list_lookup_insert_ne).
  cbn [goroutine_step fst snd] in E2.
  remember (go_step i m2) as m3 eqn:E3.
  rewrite (go_step_lookup i m2
             (GLoaded {| ResultKey := Key ei; Result := ri |}
                      (ProcessedEvents (loop m)))) in E3
    by (subst m2 m1; cbn [goroutines];
        rewrite list_lookup_insert_ne by done;
        by apply list_lookup_insert_eq).
  cbn [goroutine_step fst snd] in E3.
  rewrite (go_step_lookup j m3
             (GLoaded {| ResultKey := Key ej; Result := rj |}
                      (ProcessedEvents (loop m))))
    by (subst m3 m2 m1; cbn [goroutines loop];
        rewrite list_lookup_insert_ne by done;
        apply list_lookup_insert_eq; by rewrite length_insert).
  done.
Qed.

(** C7. The code puts nothing between the goroutines and the completed
    queue.  Two goroutines can both stand between their read and their
    write of the queue; when they do, the first result written is
    overwritten and is never drained, although each result was stored
    once.  A goroutine that read the queue before a drain writes the
    drained result back, and it is printed a second time.  Run one after
    the other, the same appends keep both results. *)
Theorem completed_queue_unprotected :
  goroutines (exec both_read_first boot)
  = [GLoaded (hello_result 0) []; GLoaded (hello_result 1) []]
  ∧ completed overlapping_appends boot = [hello_result 0; hello_result 1]
  ∧ ProcessedEvents (loop (exec overlapping_appends boot)) = [hello_result 1]
  ∧ drained (overlapping_appends ++ menu_output ++ menu_output) boot
    = [hello_result 1]
  ∧ ProcessedEvents
      (loop (exec (overlapping_appends ++ menu_output ++ menu_output) boot))
    = []
  ∧ completed append_across_drain boot = [hello_result 0; hello_result 1]
  ∧ drained append_across_drain boot
    = [hello_result 0; hello_result 0; hello_result 1]
  ∧ stdout (exec append_across_drain boot)
    = [ReceivedEvent "hello-0"; LoopBlocked;
       ReceivedEvent "hello-1"; LoopBlocked;
       OutputForEvent (hello_result 0);
       OutputForEvent (hello_result 0);
       OutputForEvent (hello_result 1)]
  ∧ ProcessedEvents (loop (exec appends_in_turn boot))
    = [hello_result 0; hello_result 1].
Proof. repeat split; vm_compute; reflexivity. Qed.

(** ** Instances *)

Lemma fifo_dispatch_witness :
  Events (loop boot) = []
  ∧ received (exec [CallRun; Go 0; CallRun]
                (dispatch_all [hello 0 false; hello 1 true; hello 2 false]
                   boot))
    = ["hello-0"; "hello-1"]
  ∧ Events (loop (exec [CallRun; Go 0; CallRun]
                    (dispatch_all [hello 0 false; hello 1 true; hello 2 false]
                       boot)))
    = [hello 2 false].
Proof.
  destruct (fifo_dispatch [hello 0 false; hello 1 true; hello 2 false]
              [CallRun; Go 0; CallRun] boot eq_refl eq_refl)
    as (Hr & Hq & _).
  split; [reflexivity|]. split; [exact Hr|exact Hq].
Defined.

Lemma run_at_most_one_witness :
  length (Events (loop three_and_three)) = 3
  ∧ length (ProcessedEvents (loop three_and_three)) = 3
  ∧ length (Events (loop (run three_and_three))) = 2
  ∧ length (ProcessedEvents (loop (run three_and_three))) = 2.
Proof.
  destruct (run_at_most_one three_and_three) as (_ & _ & _ & H).
  split; [reflexivity|]. split; [reflexivity|].
  exact (H eq_refl eq_refl).
Defined.

Lemma sync_or_async_never_both_witness :
  Handlers (loop greeter) !! "hello-0" = Some (Some greet)
  ∧ stdout (processSynchronously (hello 0 false) greeter)
    = [OutputForEvent (hello_result 0)]
  ∧ ProcessedEvents
      (loop (go_step 0 (go_step 0 (go_step 0
         (processAsynchronously (hello 0 true) greeter)))))
    = [hello_result 0].
Proof.
  assert (Handlers (loop greeter) !! Key (hello 0 false)
          = Some (Some greet)) as HH by (vm_compute; reflexivity).
  split; [exact HH|].
  destruct (sync_or_async_never_both (hello 0 false) greet greeter HH)
    as ((Hs & _) & _ & _).
  destruct (sync_or_async_never_both (hello 0 true) greet greeter HH)
    as (_ & _ & (_ & Ha & _)).
  split; [exact Hs|exact Ha].
Defined.

Lemma no_handler_no_crash_witness :
  Events (loop unregistered) = [job]
  ∧ Handlers (loop unregistered) !! Key job = None
  ∧ stdout (run unregistered) = [ReceivedEvent "job"; NoHandlerFound "job"]
  ∧ ProcessedEvents (loop (run unregistered)) = []
  ∧ goroutines (run unregistered) = [].
Proof.
  assert (Handlers (loop unregistered) !! Key job = None) as HH
    by (vm_compute; reflexivity).
  destruct (no_handler_no_crash job [] unregistered eq_refl HH)
    as (_ & Hout & Hp & Hg & _).
  split; [reflexivity|]. split; [exact HH|].
  split; [exact Hout|]. split; [exact Hp|exact Hg].
Defined.

Lemma run_idle_witness :
  Events (loop boot) = []
  ∧ ProcessedEvents (loop boot) = []
  ∧ run boot = boot.
Proof.
  split; [reflexivity|]. split; [reflexivity|].
  exact (run_idle boot eq_refl eq_refl).
Defined.

Lemma registry_overwrite_witness :
  Key (hello 0 false) = "hello-0"
  ∧ forallb (λ a, negb (registers "hello-0" a))
      [CallDispatch (hello 0 false); CallOn "hello-1" (Some greet)] = true
  ∧ stdout
      (processSynchronously (hello 0 false)
         (exec [CallDispatch (hello 0 false); CallOn "hello-1" (Some greet)]
            (with_loop (on "hello-0" (Some shout))
               (with_loop (on "hello-0" (Some greet)) boot))))
    = [OutputForEvent (result_of shout (hello 0 false))].
Proof.
  destruct (registry_overwrite "hello-0" (Some greet) shout boot)
    as (_ & _ & H).
  destruct (H [CallDispatch (hello 0 false); CallOn "hello-1" (Some greet)]
              (hello 0 false) eq_refl eq_refl) as (_ & Hs & _).
  split; [reflexivity|]. split; [reflexivity|].
  rewrite Hs. reflexivity.
Defined.

(** ** The file-content provider *)

Lemma error_description_creating s :
  error_description ("Error creating file: " +:+ s) = true.
Proof. done. Qed.

Lemma nodes_lookup_insert (ns : gmap string Node) filename node :
  <[filename := node]> ns !! filename = Some node.
Proof. apply lookup_insert_eq. Qed.

(** As long as the device has room for the placeholder, [readFile]
    keeps the contract of the provider. *)
Lemma readFile_contract_with_room (filename : string) (fs : FileSystem) :
  String.length placeholder ≤ free fs →
  provider_contract filename fs.
Proof.
  intros Hroom. unfold provider_contract, readFile, os_ReadFile.
  destruct (nodes fs !! filename) as [[readable writable content|]|] eqn:Hn.
  - destruct readable; [done|]. simpl.
    unfold os_Create. rewrite Hn. simpl. done.
  - simpl. unfold os_Create. rewrite Hn. simpl. done.
  - simpl. unfold os_Create. rewrite Hn.
    unfold File_WriteString. cbn [name offset nodes free].
    rewrite nodes_lookup_insert.
    change (write_at 0 "New file created" "") with placeholder.
    destruct (decide _) as [_|Hno].
    2:{ simpl in Hno, Hroom. lia. }
    unfold io_ReadAll, File_Seek. cbn [name offset nodes free].
    rewrite (nodes_lookup_insert (<[filename:=_]> (nodes fs)) filename).
    left. split; [done|]. apply nodes_lookup_insert.
Qed.

Lemma readFile_contract_with_room_witness :
  provider_contract "hello.txt" {| nodes := ∅; free := 4096 |}.
Proof.
  apply readFile_contract_with_room. simpl. lia.
Defined.

(** C8. On a device with no room left, for a name that does not exist,
    [os.Create] succeeds, the write of the placeholder fails, its error
    is dropped, and [readFile] returns the empty string and leaves an
    empty file behind: neither the placeholder nor an error description,
    so the contract of the provider is broken.  There is no panic on
    this path or any other: the function is total. *)
Theorem readFile_drops_write_error :
  readFile "hello.txt" full_disk
  = ("",
     {| nodes := {[ "hello.txt" := RegularFile true true "" ]}; free := 0 |},
     ["Exists: false" +:+ newline])
  ∧ ¬ provider_contract "hello.txt" full_disk.
Proof.
  split; [vm_compute; reflexivity|].
  intros H. vm_compute in H.
  destruct H as [[H _]|H]; discriminate.
Qed.

(** ** The key generator *)

Lemma append_inj_l (base s1 s2 : string) :
  base +:+ s1 = base +:+ s2 → s1 = s2.
Proof.
  induction base as [|c base IH]; simpl; [done|].
  intros H. injection H as H. by apply IH.
Qed.

Lemma format_int_parse (id : Z) :
  NilZero.int_of_string (format_int id) = Some (Z.to_int id).
Proof.
  unfold format_int. apply NilZero.isi.
  - intros H. pose proof (DecimalZ.to_of (Z.to_int id)) as Hn.
    rewrite DecimalZ.of_to, H in Hn. discriminate.
  - intros H. pose proof (DecimalZ.to_of (Z.to_int id)) as Hn.
    rewrite DecimalZ.of_to, H in Hn. discriminate.
Qed.

Lemma format_int_inj (id id' : Z) : format_int id = format_int id' → id = id'.
Proof.
  intros H. apply (f_equal NilZero.int_of_string) in H.
  rewrite !format_int_parse in H. injection H as H.
  apply (f_equal Z.of_int) in H. by rewrite !DecimalZ.of_to in H.
Qed.

Example generateUniqueEventKey_samples :
  generateUniqueEventKey "hello" 0 = "hello-0"
  ∧ generateUniqueEventKey "read-file" 12 = "read-file-12"
  ∧ generateUniqueEventKey "fetch-from-api" 305 = "fetch-from-api-305"
  ∧ generateUniqueEventKey "hello" (-7) = "hello--7".
Proof. repeat split. Qed.

(** C9. The key is the base, a hyphen, and the decimal numeral of the
    counter (reading the numeral back gives the counter); it depends on
    nothing but the two arguments; and for one base, different counters
    give different keys. *)
Theorem key_generator (base : string) (id id' : Z) :
  generateUniqueEventKey base id = base +:+ "-" +:+ format_int id
  ∧ Z.of_int <$> NilZero.int_of_string (format_int id) = Some id
  ∧ (id ≠ id' →
     generateUniqueEventKey base id ≠ generateUniqueEventKey base id').
Proof.
  split; [done|]. split.
  - rewrite format_int_parse. simpl. by rewrite DecimalZ.of_to.
  - intros Hne Heq. apply Hne. unfold generateUniqueEventKey in Heq.
    apply append_inj_l in Heq. apply (append_inj_l "-") in Heq.
    by apply format_int_inj.
Qed.

Lemma key_generator_witness :
  (0 ≠ 1)%Z
  ∧ generateUniqueEventKey "hello" 0 ≠ generateUniqueEventKey "hello" 1.
Proof.
  assert (0 ≠ 1)%Z as Hne by lia.
  split; [exact Hne|].
  destruct (key_generator "hello" 0 1) as (_ & _ & H). exact (H Hne).
Defined.

(** ** Ticks in a row *)

Lemma exists_handler_Some key fn e :
  Handlers e !! key = Some fn → exists_handler key e = true.
Proof.
  intros HH. unfold exists_handler. rewrite HH.
  apply bool_decide_eq_true_2. by eexists.
Qed.

Lemma exists_handler_None key e :
  Handlers e !! key = None → exists_handler key e = false.
Proof.
  intros HH. unfold exists_handler. rewrite HH.
  apply bool_decide_eq_false_2. by intros [? ?].
Qed.

Lemma run_dispatch_head event rest m :
  Events (loop m) = event :: rest →
  run_dispatch m
  = {| loop := set_Events rest (loop m);
       goroutines := goroutines m ++ dispatch_spawns (loop m) event;
       stdout := stdout m ++ dispatch_lines (loop m) event |}.
Proof.
  intros HE. unfold dispatch_spawns, dispatch_lines.
  destruct (Handlers (loop m) !! Key event) as [fn|] eqn:HH.
  - rewrite (run_dispatch_registered event rest fn m HE HH).
    rewrite (exists_handler_Some _ _ _ HH). simpl andb.
    destruct (IsAsync event).
    + unfold processAsynchronously, spawn, print, poll. simpl.
      by rewrite <- app_assoc.
    + unfold processSynchronously. rewrite handler_of_poll.
      destruct (handler_of (Key event) (loop m));
        unfold produceOutputFor, print, poll; simpl;
        rewrite ?app_nil_r, <- ?app_assoc; done.
  - rewrite (run_dispatch_unregistered event rest m HE HH).
    rewrite (exists_handler_None _ _ HH).
    unfold print, poll. simpl. by rewrite app_nil_r, <- ?app_assoc.
Qed.

Lemma dispatch_lines_registry e1 e2 event :
  Handlers e1 = Handlers e2 →
  dispatch_lines e1 event = dispatch_lines e2 event.
Proof.
  intros HH. unfold dispatch_lines, exists_handler, handler_of.
  by rewrite HH.
Qed.

Lemma ticks_lines_registry e1 e2 n : ∀ pending results,
  Handlers e1 = Handlers e2 →
  ticks_lines e1 n pending results = ticks_lines e2 n pending results.
Proof.
  induction n as [|n IH]; intros pending results HH; [done|].
  cbn [ticks_lines]. rewrite (IH _ _ HH). do 2 f_equal.
  apply list_fmap_ext. intros i event _.
  by apply dispatch_lines_registry.
Qed.

Lemma run_stdout m :
  stdout (run m)
  = stdout m
    ++ concat (dispatch_lines (loop m) <$> take 1 (Events (loop m)))
    ++ (OutputForEvent <$> take 1 (ProcessedEvents (loop m))).
Proof.
  unfold run. rewrite run_drain_stdout, run_dispatch_ProcessedEvents.
  destruct (Events (loop m)) as [|event rest] eqn:HE.
  - unfold run_dispatch. rewrite HE. done.
  - rewrite (run_dispatch_head event rest m HE). simpl.
    by rewrite app_nil_r, <- app_assoc.
Qed.

Lemma exec_ticks n : ∀ m,
  let m' := exec (replicate n CallRun) m in
  stdout m'
  = stdout m
    ++ ticks_lines (loop m) n (Events (loop m)) (ProcessedEvents (loop m))
  ∧ Events (loop m') = drop n (Events (loop m))
  ∧ ProcessedEvents (loop m') = drop n (ProcessedEvents (loop m))
  ∧ Handlers (loop m') = Handlers (loop m).
Proof.
  induction n as [|n IH]; intros m; simpl.
  - by rewrite app_nil_r.
  - destruct (IH (run m)) as (Hout & HE & HP & HH).
    rewrite Hout, HE, HP, HH, run_stdout, run_Events, run_ProcessedEvents,
      run_Handlers.
    rewrite (ticks_lines_registry (loop (run m)) (loop m))
      by apply run_Handlers.
    split; [by rewrite <- !app_assoc|].
    split; [by destruct (Events (loop m)); simpl; rewrite ?drop_nil|].
    split; [|done].
    by destruct (ProcessedEvents (loop m)); simpl; rewrite ?drop_nil.
Qed.

Lemma ticks_lines_no_results e n : ∀ pending,
  ticks_lines e n pending []
  = concat (dispatch_lines e <$> take n pending).
Proof.
  induction n as [|n IH]; intros pending; [done|]. simpl.
  rewrite IH. destruct pending as [|event pending]; simpl.
  - by rewrite take_nil.
  - by rewrite app_nil_r.
Qed.

Lemma ticks_lines_no_events e n : ∀ results,
  ticks_lines e n [] results = OutputForEvent <$> take n results.
Proof.
  induction n as [|n IH]; intros results; [done|]. simpl.
  rewrite IH. destruct results as [|r results]; simpl; [|done].
  by rewrite take_nil.
Qed.

(** X1. With the completed queue empty, n calls of [run] in a row print,
    event by event and in submission order, the lines of the first n
    pending events (announcement; for a registered key the result of a
    synchronous handler and the blocked line; for an unregistered key
    the no-handler line) and nothing else, and leave the other
    events pending. *)
Theorem ticks_print_pending_in_order (n : nat) (m : Machine) :
  ProcessedEvents (loop m) = [] →
  stdout (exec (replicate n CallRun) m)
  = stdout m ++ concat (dispatch_lines (loop m) <$> take n (Events (loop m)))
  ∧ Events (loop (exec (replicate n CallRun) m)) = drop n (Events (loop m))
  ∧ ProcessedEvents (loop (exec (replicate n CallRun) m)) = [].
Proof.
  intros HP. destruct (exec_ticks n m) as (Hout & HE & HP' & _).
  rewrite Hout, HE, HP', HP, ticks_lines_no_results.
  by rewrite drop_nil.
Qed.

Lemma ticks_print_pending_in_order_witness :
  ProcessedEvents (loop (dispatch_all [hello 0 false; job; hello 0 true]
                           greeter)) = []
  ∧ stdout (exec (replicate 3 CallRun)
              (dispatch_all [hello 0 false; job; hello 0 true] greeter))
    = [ReceivedEvent "hello-0"; OutputForEvent (hello_result 0); LoopBlocked;
       ReceivedEvent "job"; NoHandlerFound "job";
       ReceivedEvent "hello-0"; LoopBlocked].
Proof.
  split; [reflexivity|].
  destruct (ticks_print_pending_in_order 3
              (dispatch_all [hello 0 false; job; hello 0 true] greeter)
              eq_refl) as (H & _).
  rewrite H. reflexivity.
Defined.

(** X2. With the pending queue empty, n calls of [run] in a row print
    the first n results of the completed queue, oldest first, one per
    call, and leave the others queued. *)
Theorem ticks_drain_in_order (n : nat) (m : Machine) :
  Events (loop m) = [] →
  stdout (exec (replicate n CallRun) m)
  = stdout m ++ (OutputForEvent <$> take n (ProcessedEvents (loop m)))
  ∧ ProcessedEvents (loop (exec (replicate n CallRun) m))
    = drop n (ProcessedEvents (loop m))
  ∧ Events (loop (exec (replicate n CallRun) m)) = [].
Proof.
  intros HE. destruct (exec_ticks n m) as (Hout & HE' & HP & _).
  rewrite Hout, HE', HP, HE, ticks_lines_no_events.
  by rewrite drop_nil.
Qed.

Lemma ticks_drain_in_order_witness :
  Events (loop (exec appends_in_turn boot)) = []
  ∧ stdout (exec (replicate 2 CallRun) (exec appends_in_turn boot))
    = stdout (exec appends_in_turn boot)
      ++ [OutputForEvent (hello_result 0); OutputForEvent (hello_result 1)]
  ∧ ProcessedEvents
      (loop (exec (replicate 2 CallRun) (exec appends_in_turn boot))) = [].
Proof.
  split; [reflexivity|].
  destruct (ticks_drain_in_order 2 (exec appends_in_turn boot) eq_refl)
    as (H & HP & _).
  rewrite H, HP. split; reflexivity.
Defined.

(** ** An asynchronous event from tick to output *)

Lemma run_no_results_head event rest m :
  Events (loop m) = event :: rest →
  ProcessedEvents (loop m) = [] →
  run m
  = {| loop := set_Events rest (loop m);
       goroutines := goroutines m ++ dispatch_spawns (loop m) event;
       stdout := stdout m ++ dispatch_lines (loop m) event |}.
Proof.
  intros HE HP. unfold run. rewrite (run_dispatch_head event rest m HE).
  unfold run_drain. simpl. by rewrite HP.
Qed.

Lemma run_head event rest m :
  Events (loop m) = event :: rest →
  run m
  = run_drain
      {| loop := set_Events rest (loop m);
         goroutines := goroutines m ++ dispatch_spawns (loop m) event;
         stdout := stdout m ++ dispatch_lines (loop m) event |}.
Proof. intros HE. unfold run. by rewrite (run_dispatch_head event rest m HE). Qed.

Lemma run_drain_loop m :
  loop (run_drain m)
  = set_ProcessedEvents (tail (ProcessedEvents (loop m))) (loop m).
Proof.
  unfold run_drain. destruct (loop m) as [evs hs rs] eqn:E.
  destruct rs as [|r rs]; simpl; by rewrite ?E.
Qed.

Lemma goroutine_body event handler e :
  Handlers e !! Key event = Some (Some handler) →
  goroutine_step
    (goroutine_step (goroutine_step (GStart event) e).1
                    (goroutine_step (GStart event) e).2).1
    (goroutine_step (goroutine_step (GStart event) e).1
                    (goroutine_step (GStart event) e).2).2
  = (GDone,
     set_ProcessedEvents (ProcessedEvents e ++ [result_of handler event]) e).
Proof. intros HH. simpl. unfold handler_of. by rewrite HH. Qed.

(** X3. The whole path of an asynchronous event: when it is the only
    pending event, its key holds a handler and the completed queue is
    empty, a tick, the three steps of the goroutine it starts, and one
    more tick print the announcement, the blocked line and then the
    handler's result, once, and leave both queues empty. *)
Theorem async_event_round_trip (event : Event) (handler : string → string)
    (m : Machine) :
  Events (loop m) = [event] →
  IsAsync event = true →
  Handlers (loop m) !! Key event = Some (Some handler) →
  ProcessedEvents (loop m) = [] →
  let i := length (goroutines m) in
  let m' := exec [CallRun; Go i; Go i; Go i; CallRun] m in
  stdout m'
  = stdout m ++ [ReceivedEvent (Key event); LoopBlocked;
                 OutputForEvent (result_of handler event)]
  ∧ Events (loop m') = []
  ∧ ProcessedEvents (loop m') = []
  ∧ goroutines m' = goroutines m ++ [GDone].
Proof.
  intros HE Hasync HH HP i m'. subst m' i. cbn [exec exec_action].
  rewrite (run_no_results_head event [] m HE HP).
  unfold dispatch_spawns, dispatch_lines.
  rewrite (exists_handler_Some _ _ _ HH), Hasync. cbn [andb app].
  rewrite !go_step_last.
  rewrite (goroutine_body event handler (set_Events [] (loop m)) HH).
  simpl. rewrite HP. unfold run, run_dispatch, run_drain. simpl.
  by rewrite <- app_assoc.
Qed.

Lemma async_event_round_trip_witness :
  Events (loop (exec (take 2 (menu_hello 0 true)) boot)) = [hello 0 true]
  ∧ stdout (exec [CallRun; Go 0; Go 0; Go 0; CallRun]
              (exec (take 2 (menu_hello 0 true)) boot))
    = [ReceivedEvent "hello-0"; LoopBlocked;
       OutputForEvent (hello_result 0)].
Proof.
  split; [reflexivity|].
  assert (Handlers (loop (exec (take 2 (menu_hello 0 true)) boot))
            !! Key (hello 0 true) = Some (Some greet)) as HH
    by (vm_compute; reflexivity).
  destruct (async_event_round_trip (hello 0 true) greet
              (exec (take 2 (menu_hello 0 true)) boot)
              eq_refl eq_refl HH eq_refl) as (H & _).
  exact H.
Defined.

(** X4. The goroutine of an asynchronous event looks its handler up when
    it starts, not when the event is ticked: if the key is registered
    with a new handler between the tick and the goroutine's first step,
    the result appended is the new handler's, whatever was registered
    (a handler or nil) at the time of the tick. *)
Theorem async_handler_bound_at_start (event : Event) (rest : list Event)
    (fn : Handler) (handler : string → string) (m : Machine) :
  Events (loop m) = event :: rest →
  IsAsync event = true →
  Handlers (loop m) !! Key event = Some fn →
  let i := length (goroutines m) in
  let m' :=
    exec [CallRun; CallOn (Key event) (Some handler); Go i; Go i; Go i] m in
  ProcessedEvents (loop m')
  = tail (ProcessedEvents (loop m)) ++ [result_of handler event]
  ∧ goroutines m' = goroutines m ++ [GDone].
Proof.
  intros HE Hasync HH i m'. subst m' i. cbn [exec exec_action].
  rewrite (run_head event rest m HE).
  unfold dispatch_spawns.
  rewrite (exists_handler_Some _ _ _ HH), Hasync. cbn [andb app].
  set (m1 := run_drain _).
  assert (goroutines m1 = goroutines m ++ [GStart event]) as Hg
    by (subst m1; by rewrite run_drain_goroutines).
  assert (ProcessedEvents (loop m1) = tail (ProcessedEvents (loop m))) as Hp
    by (subst m1; by rewrite run_drain_ProcessedEvents).
  destruct m1 as [e1 g1 o1]. simpl in Hg, Hp. subst g1.
  unfold with_loop. simpl. rewrite !go_step_last.
  rewrite (goroutine_body event handler (on (Key event) (Some handler) e1))
    by apply lookup_insert_eq.
  simpl. by rewrite Hp.
Qed.

Lemma async_handler_bound_at_start_witness :
  Events (loop (exec (take 2 (menu_hello 0 true)) boot)) = [hello 0 true]
  ∧ ProcessedEvents
      (loop (exec [CallRun; CallOn "hello-0" (Some shout); Go 0; Go 0; Go 0]
               (exec (take 2 (menu_hello 0 true)) boot)))
    = [result_of shout (hello 0 true)].
Proof.
  split; [reflexivity|].
  assert (Handlers (loop (exec (take 2 (menu_hello 0 true)) boot))
            !! Key (hello 0 true) = Some (Some greet)) as HH
    by (vm_compute; reflexivity).
  destruct (async_handler_bound_at_start (hello 0 true) [] (Some greet) shout
              (exec (take 2 (menu_hello 0 true)) boot)
              eq_refl eq_refl HH) as (H & _).
  exact H.
Defined.

(** ** The registry over time *)

Lemma exec_action_keeps_key a m key :
  is_Some (Handlers (loop m) !! key) →
  is_Some (Handlers (loop (exec_action a m)) !! key).
Proof.
  intros Hk. destruct a as [key' fn|event| |i]; simpl.
  - apply lookup_insert_is_Some. destruct (decide (key' = key)); auto.
  - done.
  - by rewrite run_Handlers.
  - by destruct (go_step_loop_frame i m) as (_ & -> & _).
Qed.

(** X5. Nothing in the loop ever removes a key from the registry: a key
    that is registered stays registered through every schedule of calls
    and goroutine steps. *)
Theorem registry_never_shrinks (sched : list Action) (m : Machine)
    (key : string) :
  is_Some (Handlers (loop m) !! key) →
  is_Some (Handlers (loop (exec sched m)) !! key).
Proof.
  revert m. induction sched as [|a sched IH]; intros m Hk; [done|].
  simpl. apply IH. by apply exec_action_keeps_key.
Qed.

Lemma registry_never_shrinks_witness :
  is_Some (Handlers (loop greeter) !! "hello-0")
  ∧ is_Some (Handlers (loop (exec append_across_drain greeter)) !! "hello-0").
Proof.
  assert (is_Some (Handlers (loop greeter) !! "hello-0")) as Hk
    by (vm_compute; eexists; reflexivity).
  split; [exact Hk|].
  exact (registry_never_shrinks append_across_drain greeter "hello-0" Hk).
Defined.

Lemma no_handler_lines event rest m :
  Events (loop m) = event :: rest →
  Handlers (loop m) !! Key event = None →
  stdout (run m)
  = stdout m ++ [ReceivedEvent (Key event); NoHandlerFound (Key event)]
    ++ (OutputForEvent <$> take 1 (ProcessedEvents (loop m)))
  ∧ ProcessedEvents (loop (run m)) = tail (ProcessedEvents (loop m))
  ∧ goroutines (run m) = goroutines m
  ∧ Handlers (loop (run m)) = Handlers (loop m).
Proof.
  intros HE HH. rewrite run_ProcessedEvents, run_Handlers.
  unfold run. rewrite run_drain_stdout, run_drain_goroutines.
  rewrite (run_dispatch_unregistered event rest m HE HH). simpl.
  by rewrite <- !app_assoc.
Qed.

Lemma untouched_step a m :
  is_on a = false → untouched m → untouched (exec_action a m).
Proof.
  intros Ha (HH & Hg & HP & Hout).
  destruct a as [key fn|event| |i]; simpl in *; try done.
  - destruct (Events (loop m)) as [|event rest] eqn:HE.
    + by rewrite (run_idle m HE HP).
    + assert (Handlers (loop m) !! Key event = None) as Hnone
        by (by rewrite HH).
      destruct (no_handler_lines event rest m HE Hnone)
        as (Hout' & HP' & Hg' & HH').
      split; [by rewrite HH'|]. split; [by rewrite Hg'|].
      split; [by rewrite HP', HP|].
      rewrite Hout', HP, forallb_app, Hout. done.
  - unfold go_step. by rewrite Hg.
Qed.

(** X6. Until [on] is called, a new loop executes nothing: after any
    schedule without a registration, started from [NewEventLoop], the
    registry is empty, no goroutine exists, the completed queue is
    empty, and everything printed is an announcement or a no-handler
    line. *)
Theorem nothing_runs_before_registration (sched : list Action) :
  forallb (λ a, negb (is_on a)) sched = true →
  Handlers (loop (exec sched boot)) = ∅
  ∧ goroutines (exec sched boot) = []
  ∧ ProcessedEvents (loop (exec sched boot)) = []
  ∧ forallb idle_line (stdout (exec sched boot)) = true.
Proof.
  intros Hno. change (untouched (exec sched boot)).
  assert (untouched boot) as Hboot by done.
  revert Hboot. generalize boot as m. induction sched as [|a sched IH];
    intros m Hm; [done|].
  simpl in Hno. apply andb_prop in Hno as [Ha Hno]. simpl.
  apply IH; [done|]. apply untouched_step; [|done].
  by apply negb_true_iff.
Qed.

Lemma nothing_runs_before_registration_witness :
  stdout (exec [CallDispatch (hello 0 true); CallDispatch job;
                CallRun; Go 0; CallRun; CallRun] boot)
  = [ReceivedEvent "hello-0"; NoHandlerFound "hello-0";
     ReceivedEvent "job"; NoHandlerFound "job"]
  ∧ goroutines (exec [CallDispatch (hello 0 true); CallDispatch job;
                      CallRun; Go 0; CallRun; CallRun] boot) = [].
Proof.
  destruct (nothing_runs_before_registration
              [CallDispatch (hello 0 true); CallDispatch job;
               CallRun; Go 0; CallRun; CallRun] eq_refl)
    as (_ & Hg & _).
  split; [reflexivity|exact Hg].
Defined.

(** X7. Registrations under different keys can be made in either order,
    a registration and a submission can be made in either order, and
    neither touches the queue or the registry of the other: the loop
    that results is the same. *)
Theorem registration_commutes (key1 key2 : string) (fn1 fn2 : Handler)
    (event : Event) (e : EventLoop) :
  key1 ≠ key2 →
  on key1 fn1 (on key2 fn2 e) = on key2 fn2 (on key1 fn1 e)
  ∧ on key1 fn1 (dispatch event e) = dispatch event (on key1 fn1 e)
  ∧ Events (on key1 fn1 e) = Events e
  ∧ ProcessedEvents (on key1 fn1 e) = ProcessedEvents e
  ∧ Handlers (dispatch event e) = Handlers e.
Proof.
  intros Hne. repeat split.
  unfold on. simpl. f_equal. by apply insert_insert_ne.
Qed.

Lemma registration_commutes_witness :
  "hello-0" ≠ "hello-1"
  ∧ on "hello-0" (Some greet) (on "hello-1" (Some shout) NewEventLoop)
    = on "hello-1" (Some shout) (on "hello-0" (Some greet) NewEventLoop).
Proof.
  assert ("hello-0" ≠ "hello-1") as Hne by discriminate.
  split; [exact Hne|].
  destruct (registration_commutes "hello-0" "hello-1" (Some greet)
              (Some shout) job NewEventLoop Hne) as (H & _).
  exact H.
Defined.

(** ** The prompts of [main] *)

Lemma valid_choice_first (c : Ascii.ascii) (rest : string) :
  valid_choice (String c rest)
  = (String.eqb (String c "") "1" || String.eqb (String c "") "2"
     || String.eqb (String c "") "3" || String.eqb (String c "") "4"
     || String.eqb (String c rest) "5").
Proof.
  destruct c as [[] [] [] [] [] [] [] []]; try reflexivity;
    by destruct rest.
Qed.

(** X8. The check of the menu choice at line 185 compares strings, not
    numbers: a line is accepted exactly when it is "5" or begins with
    one of the characters 1, 2, 3, 4, whatever follows.  So "10" and
    "4x" are accepted and "50" is not. *)
Theorem valid_choice_spec (line : string) :
  valid_choice line = true
  ↔ line = "5"
    ∨ ∃ rest, line = "1" +:+ rest ∨ line = "2" +:+ rest
              ∨ line = "3" +:+ rest ∨ line = "4" +:+ rest.
Proof.
  destruct line as [|c rest].
  { split; [done|]. by intros [?|(? & [?|[?|[?|?]]])]. }
  rewrite valid_choice_first, !orb_true_iff, !String.eqb_eq. split.
  - intros [[[[H|H]|H]|H]|H]; [| | | |by left];
      injection H as ->; right; exists rest; tauto.
  - intros [H|(rest' & [H|[H|[H|H]]])]; [by right|..];
      injection H as -> _; tauto.
Qed.

Lemma valid_choice_spec_witness :
  valid_choice "10" = true ∧ valid_choice "4x" = true
  ∧ valid_choice "50" = false.
Proof.
  split; [|split; [|reflexivity]].
  - apply (proj2 (valid_choice_spec "10")). right. exists "0". by left.
  - apply (proj2 (valid_choice_spec "4x")). right. exists "x". tauto.
Defined.

Lemma ask_Some valid input answer rest n :
  ask valid input = Some (answer, rest, n)
  ↔ ∃ skipped,
      input = skipped ++ answer :: rest
      ∧ length skipped = n
      ∧ forallb (λ line, negb (valid line)) skipped = true
      ∧ valid answer = true.
Proof.
  revert n. induction input as [|line input IH]; intros n; simpl.
  - split; [done|]. intros (skipped & H & _). by destruct skipped.
  - destruct (valid line) eqn:Hv.
    + split.
      * intros [= -> -> <-]. by exists [].
      * intros (skipped & H & Hn & Hs & Ha).
        destruct skipped as [|line' skipped]; simpl in *.
        -- by injection H as -> ->; subst.
        -- injection H as <- _. by rewrite Hv in Hs.
    + destruct (ask valid input) as [[[a r] k]|] eqn:Hask.
      * split.
        -- intros [= -> -> <-].
           destruct (proj1 (IH k) eq_refl) as (skipped & -> & Hn & Hs & Ha).
           exists (line :: skipped). simpl. by rewrite Hv, Hn.
        -- intros (skipped & H & Hn & Hs & Ha).
           destruct skipped as [|line' skipped]; simpl in *.
           { injection H as -> _. by rewrite Hv in Ha. }
           injection H as <- ->. apply andb_prop in Hs as [_ Hs].
           destruct n as [|n]; [done|]. injection Hn as Hn.
           assert (Some (a, r, k) = Some (answer, rest, n)) as [= -> -> ->]
             by (apply IH; by exists skipped).
           done.
      * split; [done|]. intros (skipped & H & Hn & Hs & Ha).
        destruct skipped as [|line' skipped]; simpl in *.
        { injection H as -> _. by rewrite Hv in Ha. }
        injection H as <- ->. apply andb_prop in Hs as [_ Hs].
        destruct n as [|n]; [done|]. injection Hn as Hn.
        assert (None = Some (answer, rest, n)) as Habs
          by (apply IH; by exists skipped).
        done.
Qed.

Lemma ask_None valid input :
  ask valid input = None
  ↔ forallb (λ line, negb (valid line)) input = true.
Proof.
  induction input as [|line input IH]; simpl; [done|].
  destruct (valid line); simpl; [done|].
  rewrite <- IH. by destruct (ask valid input) as [[[? ?] ?]|].
Qed.

(** X9. Each prompt loop returns the first line that passes its check:
    the lines before it were all turned down and are counted, the lines
    after it are left for the next read; and it never returns exactly
    when no line of the input passes. *)
Theorem ask_first_valid (valid : string → bool) (input : list string) :
  match ask valid input with
  | Some (answer, rest, n) =>
      input = take n input ++ answer :: rest
      ∧ n < length input
      ∧ forallb (λ line, negb (valid line)) (take n input) = true
      ∧ valid answer = true
  | None => forallb (λ line, negb (valid line)) input = true
  end.
Proof.
  destruct (ask valid input) as [[[answer rest] n]|] eqn:Hask.
  - apply ask_Some in Hask as (skipped & -> & <- & Hs & Ha).
    rewrite take_app_length, length_app. simpl.
    split; [done|]. split; [lia|done].
  - by apply ask_None.
Qed.

Section MainFacts.
(** The functions registered by menu entries 2 and 3. *)
Variable rf ff : string → string.


Lemma ask_shorter valid input answer rest n :
  ask valid input = Some (answer, rest, n) → length rest < length input.
Proof.
  intros (skipped & -> & _)%ask_Some. rewrite length_app. simpl. lia.
Qed.

(** What a pass that ticks is made of. *)
Lemma iteration_Ticked eventID input calls eventID' input' :
  iteration rf ff eventID input = Ticked calls eventID' input' →
  length input' < length input
  ∧ ∃ usersChoice async,
      menu rf ff usersChoice async eventID = (calls_before_tick calls, eventID')
      ∧ calls = calls_before_tick calls ++ [CallRun].
Proof.
  unfold iteration.
  destruct (ask valid_choice input) as [[[choice input1] n1]|] eqn:H1;
    [|done].
  apply ask_shorter in H1.
  destruct (String.eqb choice "5"); [done|].
  destruct (negb (String.eqb choice "4")).
  - destruct (ask valid_mode input1) as [[[mode input2] n2]|] eqn:H2;
      [|done].
    apply ask_shorter in H2.
    destruct (menu rf ff choice (isAsync mode) eventID) as [cs id'] eqn:Hm.
    intros [= <- <- <-]. split; [lia|].
    exists choice, (isAsync mode).
    unfold calls_before_tick. by rewrite removelast_last.
  - destruct (menu rf ff choice (isAsync "") eventID) as [cs id'] eqn:Hm.
    intros [= <- <- <-]. split; [lia|].
    exists choice, (isAsync "").
    unfold calls_before_tick. by rewrite removelast_last.
Qed.

Lemma iteration_Starved eventID input :
  forallb (λ line, negb (valid_choice line)) input = true →
  iteration rf ff eventID input = Starved.
Proof.
  intros H%ask_None. unfold iteration. by rewrite H.
Qed.

Lemma session_ends passes : ∀ eventID input,
  length input < passes →
  (session rf ff passes eventID input).2 ≠ Unfinished.
Proof.
  induction passes as [|passes IH]; intros eventID input Hlen; [lia|].
  simpl.
  destruct (iteration rf ff eventID input) as [calls id' input'| |] eqn:Hit;
    [|done..].
  apply iteration_Ticked in Hit as [Hshort _].
  specialize (IH id' input'). 
  destruct (session rf ff passes id' input') as [later ending]. simpl in *.
  apply IH. lia.
Qed.

Lemma session_passes p1 : ∀ p2 eventID input,
  length input < p1 → length input < p2 →
  session rf ff p1 eventID input = session rf ff p2 eventID input.
Proof.
  induction p1 as [|p1 IH]; intros p2 eventID input H1 H2; [lia|].
  destruct p2 as [|p2]; [lia|]. simpl.
  destruct (iteration rf ff eventID input) as [calls id' input'| |] eqn:Hit;
    [|done..].
  apply iteration_Ticked in Hit as [Hshort _].
  by rewrite (IH p2 id' input') by lia.
Qed.

(** X10. [main] always comes to one of two ends, and within one pass
    more than there are input lines: it leaves the loop on choice 5, or
    the input runs out and the prompt loop spins on empty reads.  More
    passes than that change nothing. *)
Theorem main_exits_or_spins (input : list string) (passes : nat) :
  length input < passes →
  session rf ff passes 0 input = main rf ff input
  ∧ ((main rf ff input).2 = ByExit ∨ (main rf ff input).2 = BySpinning).
Proof.
  intros Hlen. split.
  - unfold main. apply session_passes; [done|lia].
  - pose proof (session_ends (S (length input)) 0%Z input) as Hend.
    unfold main.
    destruct (session rf ff (S (length input)) 0 input).2; [by left|by right|].
    exfalso. apply Hend; [lia|done].
Qed.

(** X14. When no line of the input is an accepted choice (in particular
    when the input is empty), [main] never ticks and never exits: it
    makes no call on the loop and spins. *)
Theorem main_starves_without_choice (input : list string) :
  forallb (λ line, negb (valid_choice line)) input = true →
  main rf ff input = ([], BySpinning).
Proof.
  intros H. unfold main. simpl. by rewrite iteration_Starved.
Qed.

(** X15. When the first accepted choice is 5, [main] leaves at once: no
    call is made on the loop, so nothing that is still queued is ever
    printed, and the lines after the 5 are not read. *)
Theorem main_exit_without_tick (skipped rest : list string) :
  forallb (λ line, negb (valid_choice line)) skipped = true →
  main rf ff (skipped ++ "5" :: rest) = ([], ByExit).
Proof.
  intros Hs. unfold main. simpl.
  assert (ask valid_choice (skipped ++ "5" :: rest)
          = Some ("5", rest, length skipped)) as Hask.
  { apply ask_Some. by exists skipped. }
  destruct (length skipped + S (length rest)); simpl;
    unfold iteration; by rewrite Hask.
Qed.

(** X13. A line that passes the check of the choice without being one
    of "1" to "5" (such as "23") is treated as a choice: the mode is
    asked for, nothing is registered or submitted, the counter stays,
    and the loop is ticked once. *)
Theorem unknown_choice_only_ticks (eventID : Z) (usersChoice mode : string)
    (rest : list string) :
  valid_choice usersChoice = true →
  usersChoice ∉ ["1"; "2"; "3"; "4"; "5"] →
  valid_mode mode = true →
  iteration rf ff eventID (usersChoice :: mode :: rest)
  = Ticked [CallRun] eventID rest.
Proof.
  intros Hc Hnot Hm. unfold iteration. simpl.
  rewrite Hc.
  assert (∀ s, s ∈ ["1"; "2"; "3"; "4"; "5"] →
               String.eqb usersChoice s = false) as Hne.
  { intros s Hs. apply String.eqb_neq. by intros ->. }
  rewrite (Hne "5"), (Hne "4") by set_solver. simpl. rewrite Hm.
  unfold menu.
  by rewrite (Hne "1"), (Hne "2"), (Hne "3") by set_solver.
Qed.

(** ** The pending queue and the keys over a run of [main] *)

Lemma pending_after_app calls1 : ∀ calls2 queue,
  pending_after (calls1 ++ calls2) queue
  = pending_after calls2 (pending_after calls1 queue).
Proof.
  induction calls1 as [|a calls1 IH]; intros calls2 queue; [done|].
  destruct a; simpl; by rewrite IH.
Qed.

Lemma exec_pending sched : ∀ m,
  Events (loop (exec sched m))
  = pending_after (driver_calls sched) (Events (loop m)).
Proof.
  induction sched as [|a sched IH]; intros m; [done|]. simpl.
  rewrite IH. destruct a as [key fn|event| |i]; simpl; try done.
  - by rewrite run_Events.
  - by destruct (go_step_loop_frame i m) as (-> & _ & _).
Qed.

Lemma menu_pending usersChoice async eventID calls eventID' :
  menu rf ff usersChoice async eventID = (calls, eventID') →
  pending_after (calls ++ [CallRun]) [] = [].
Proof.
  unfold menu, submit.
  repeat (destruct (String.eqb usersChoice _)); by intros [= <- _].
Qed.

Lemma session_pending passes : ∀ eventID input,
  pending_after (session rf ff passes eventID input).1 [] = [].
Proof.
  induction passes as [|passes IH]; intros eventID input; [done|]. simpl.
  destruct (iteration rf ff eventID input) as [calls id' input'| |] eqn:Hit;
    [|done..].
  apply iteration_Ticked in Hit as (_ & choice & async & Hmenu & Hcalls).
  specialize (IH id' input').
  destruct (session rf ff passes id' input') as [later ending]. simpl in *.
  rewrite pending_after_app, Hcalls.
  by rewrite (menu_pending _ _ _ _ _ Hmenu).
Qed.

(** X11. Under [main] no event is left waiting: after any number of
    passes of its loop, however the goroutine steps fall between the
    driver's calls, the pending queue is empty again, so each event is
    polled by the tick of the pass that submitted it. *)
Theorem main_leaves_nothing_pending (passes : nat) (input : list string)
    (sched : list Action) (m : Machine) :
  driver_calls sched = (session rf ff passes 0 input).1 →
  Events (loop m) = [] →
  Events (loop (exec sched m)) = [].
Proof.
  intros Hcalls HE. rewrite exec_pending, Hcalls, HE.
  apply session_pending.
Qed.

Lemma int_wrap_small (z : Z) :
  (- 2 ^ 63 ≤ z < 2 ^ 63)%Z → int_wrap z = z.
Proof. intros Hz. unfold int_wrap. rewrite Z.mod_small; lia. Qed.

(** A key that the menu can generate with counter [id]. *)
Lemma menu_key_counter (base1 base2 : string) (id1 id2 : Z) :
  base1 ∈ ["hello"; "read-file"; "fetch-from-api"] →
  base2 ∈ ["hello"; "read-file"; "fetch-from-api"] →
  generateUniqueEventKey base1 id1 = generateUniqueEventKey base2 id2 →
  id1 = id2.
Proof.
  intros H1 H2 Heq.
  assert (base1 = base2) as <-.
  { rewrite !elem_of_cons, elem_of_nil in H1, H2.
    destruct H1 as [->|[->|[->|[]]]], H2 as [->|[->|[->|[]]]];
      try done; discriminate Heq. }
  unfold generateUniqueEventKey in Heq.
  apply append_inj_l in Heq. apply (append_inj_l "-") in Heq.
  by apply format_int_inj.
Qed.

Lemma menu_keys usersChoice async eventID calls eventID' :
  menu rf ff usersChoice async eventID = (calls, eventID') →
  (registered_keys calls = [] ∧ eventID' = eventID)
  ∨ ∃ base, base ∈ ["hello"; "read-file"; "fetch-from-api"]
            ∧ registered_keys calls = [generateUniqueEventKey base eventID]
            ∧ eventID' = increment eventID.
Proof.
  unfold menu, submit.
  destruct (String.eqb usersChoice "1");
    [intros [= <- <-]; right; exists "hello"; split; [set_solver|done]|].
  destruct (String.eqb usersChoice "2");
    [intros [= <- <-]; right; exists "read-file"; split; [set_solver|done]|].
  destruct (String.eqb usersChoice "3");
    [intros [= <- <-]; right; exists "fetch-from-api";
     split; [set_solver|done]|].
  intros [= <- <-]. by left.
Qed.

Lemma registered_keys_app calls1 calls2 :
  registered_keys (calls1 ++ calls2)
  = registered_keys calls1 ++ registered_keys calls2.
Proof. apply omap_app. Qed.

Lemma session_keys passes : ∀ eventID input,
  (0 ≤ eventID)%Z →
  (eventID + Z.of_nat (length input) < 2 ^ 63)%Z →
  NoDup (registered_keys (session rf ff passes eventID input).1)
  ∧ ∀ key,
      key ∈ registered_keys (session rf ff passes eventID input).1 →
      ∃ base id,
        base ∈ ["hello"; "read-file"; "fetch-from-api"]
        ∧ (eventID ≤ id)%Z
        ∧ key = generateUniqueEventKey base id.
Proof.
  induction passes as [|passes IH]; intros eventID input Hpos Hmax.
  { simpl. split; [constructor|]. intros key Hk. by apply elem_of_nil in Hk. }
  simpl.
  destruct (iteration rf ff eventID input) as [calls id' input'| |] eqn:Hit.
  2,3: simpl; split; [constructor|];
       intros key Hk; by apply elem_of_nil in Hk.
  apply iteration_Ticked in Hit as (Hshort & choice & async & Hmenu & Hcalls).
  apply menu_keys in Hmenu.
  assert (registered_keys calls = registered_keys (calls_before_tick calls))
    as Hkeys.
  { rewrite Hcalls at 1. rewrite registered_keys_app. simpl.
    by rewrite app_nil_r. }
  assert ((0 ≤ id')%Z ∧ (id' + Z.of_nat (length input') < 2 ^ 63)%Z
          ∧ (eventID ≤ id')%Z) as (Hpos' & Hmax' & Hle).
  { destruct Hmenu as [[_ ->]|(base & _ & _ & ->)]; [lia|].
    unfold increment. rewrite int_wrap_small; lia. }
  destruct (IH id' input' Hpos' Hmax') as [Hnd Hin].
  destruct (session rf ff passes id' input') as [later ending]. simpl in *.
  rewrite registered_keys_app, Hkeys.
  destruct Hmenu as [[-> _]|(base & Hbase & -> & ->)]; simpl.
  - split; [done|]. intros key Hk.
    destruct (Hin key Hk) as (b & id & Hb & Hid & ->).
    exists b, id. split; [done|]. split; [lia|done].
  - split.
    + constructor; [|done]. intros Hk.
      destruct (Hin _ Hk) as (b & id & Hb & Hid & Heq).
      apply (menu_key_counter base b eventID id Hbase Hb) in Heq.
      unfold increment in Hid. rewrite int_wrap_small in Hid; lia.
    + intros key [->|Hk]%elem_of_cons.
      * exists base, eventID. split; [done|]. split; [lia|done].
      * destruct (Hin key Hk) as (b & id & Hb & Hid & ->).
        exists b, id. split; [done|]. split; [|done].
        unfold increment in Hid. rewrite int_wrap_small in Hid; lia.
Qed.

(** X12. Under [main], as long as the counter cannot overflow (fewer
    than 2^63 input lines), the keys handed to [on] are pairwise
    different, also across the three bases: no registration overwrites
    an earlier one, and every event finds the handler registered with
    it. *)
Theorem main_keys_never_repeat (passes : nat) (input : list string) :
  (Z.of_nat (length input) < 2 ^ 63)%Z →
  NoDup (registered_keys (session rf ff passes 0 input).1).
Proof.
  intros Hlen. apply session_keys; lia.
Qed.

End MainFacts.

(** ** [readFile] on names that exist, and called again *)

Lemma readFile_readable filename fs writable content :
  nodes fs !! filename = Some (RegularFile true writable content) →
  readFile filename fs = (content, fs, []).
Proof. intros Hn. unfold readFile, os_ReadFile. by rewrite Hn. Qed.

Lemma readFile_unreadable filename fs writable content :
  nodes fs !! filename = Some (RegularFile false writable content) →
  readFile filename fs
  = ("Error creating file: " +:+ Error (PathError "open" filename EACCES),
     fs, ["Exists: false" +:+ newline]).
Proof.
  intros Hn. unfold readFile, os_ReadFile. rewrite Hn. simpl.
  unfold os_Create. by rewrite Hn.
Qed.

Lemma readFile_directory filename fs :
  nodes fs !! filename = Some Directory →
  readFile filename fs
  = ("Error creating file: " +:+ Error (PathError "open" filename EISDIR),
     fs, ["Exists: false" +:+ newline]).
Proof.
  intros Hn. unfold readFile, os_ReadFile. rewrite Hn. simpl.
  unfold os_Create. by rewrite Hn.
Qed.

Lemma readFile_missing filename fs :
  nodes fs !! filename = None →
  readFile filename fs
  = if decide (String.length placeholder ≤ free fs) then
      (placeholder,
       {| nodes := <[filename := RegularFile true true placeholder]>
                     (<[filename := RegularFile true true ""]> (nodes fs));
          free := free fs - String.length placeholder |},
       ["Exists: false" +:+ newline])
    else
      ("",
       {| nodes := <[filename := RegularFile true true ""]> (nodes fs);
          free := free fs |},
       ["Exists: false" +:+ newline]).
Proof.
  intros Hn. unfold readFile, os_ReadFile. rewrite Hn. simpl.
  unfold os_Create. rewrite Hn.
  unfold File_WriteString. cbn [name offset nodes free].
  rewrite nodes_lookup_insert.
  change (write_at 0 "New file created" "") with placeholder.
  change (String.length placeholder - String.length "") with 16.
  change (String.length placeholder) with 16.
  destruct (decide (16 ≤ free fs)).
  - unfold io_ReadAll, File_Seek. cbn [name offset nodes free].
    by rewrite (nodes_lookup_insert (<[filename:=_]> (nodes fs)) filename).
  - unfold io_ReadAll, File_Seek. cbn [name offset nodes free].
    by rewrite nodes_lookup_insert.
Qed.

(** X16. [readFile] never changes a name that exists: whether the file
    can be read or not, and also for a directory, the file system after
    the call is the file system before it. *)
Theorem readFile_keeps_existing (filename : string) (fs : FileSystem) :
  is_Some (nodes fs !! filename) →
  (readFile filename fs).1.2 = fs.
Proof.
  intros [[[] writable content|] Hn].
  - by rewrite (readFile_readable _ _ _ _ Hn).
  - by rewrite (readFile_unreadable _ _ _ _ Hn).
  - by rewrite (readFile_directory _ _ Hn).
Qed.


(** X18. A name that exists but cannot be read is reported as a failure
    to create it: for a file without read permission the result is
    "Error creating file: open NAME: permission denied", for a directory
    "Error creating file: open NAME: is a directory"; in both cases the
    line "Exists: false" is printed although the name exists. *)
Theorem readFile_reports_create_failure (filename : string)
    (fs : FileSystem) (node : Node) :
  nodes fs !! filename = Some node →
  (∀ writable content, node ≠ RegularFile true writable content) →
  readFile filename fs
  = ("Error creating file: open " +:+ filename +:+ ": "
     +:+ (match node with
          | Directory => "is a directory"
          | RegularFile _ _ _ => "permission denied"
          end),
     fs, ["Exists: false" +:+ newline]).
Proof.
  intros Hn Hnot. destruct node as [[] writable content|].
  - by destruct (Hnot writable content).
  - by rewrite (readFile_unreadable _ _ _ _ Hn).
  - by rewrite (readFile_directory _ _ Hn).
Qed.

(** X20. Whenever [os.ReadFile] fails, [readFile] prints "Exists: false"
    and goes on to create the file: the error of a failed read never
    satisfies [os.IsExist], so the branch that would report it as a
    read error (line 124) is never taken. *)
Theorem readFile_always_tries_create (filename : string) (fs : FileSystem) :
  (readFile filename fs).2
  = (match os_ReadFile filename fs with
     | inl _ => []
     | inr _ => ["Exists: false" +:+ newline]
     end)
  ∧ (∀ err, os_ReadFile filename fs = inr err → os_IsExist err = false).
Proof.
  split.
  - unfold os_ReadFile.
    destruct (nodes fs !! filename) as [[[] writable content|]|] eqn:Hn.
    + by rewrite (readFile_readable _ _ _ _ Hn).
    + by rewrite (readFile_unreadable _ _ _ _ Hn).
    + by rewrite (readFile_directory _ _ Hn).
    + rewrite (readFile_missing _ _ Hn). by destruct (decide _).
  - unfold os_ReadFile. intros err.
    destruct (nodes fs !! filename) as [[[] writable content|]|];
      by intros [= <-].
Qed.

(** ** Keys across bases *)

Lemma append_assoc (s1 s2 s3 : string) :
  (s1 +:+ s2) +:+ s3 = s1 +:+ (s2 +:+ s3).
Proof.
  induction s1 as [|c s1 IH]; [done|].
  change (String c ((s1 +:+ s2) +:+ s3) = String c (s1 +:+ s2 +:+ s3)).
  by rewrite IH.
Qed.

(** X19. Keys are not unique across bases: a negative counter under one
    base gives the key of its absolute value under that base followed
    by a hyphen. *)
Theorem key_collision_across_bases (base : string) (id : Z) :
  (0 < id)%Z →
  generateUniqueEventKey base (- id)
  = generateUniqueEventKey (base +:+ "-") id.
Proof.
  intros Hid. unfold generateUniqueEventKey. rewrite append_assoc.
  destruct id as [|p|p]; [lia| |lia]. reflexivity.
Qed.

Lemma key_collision_across_bases_witness :
  (0 < 7)%Z
  ∧ generateUniqueEventKey "hello" (-7) = generateUniqueEventKey "hello-" 7.
Proof.
  assert (0 < 7)%Z as H by lia.
  split; [exact H|]. exact (key_collision_across_bases "hello" 7 H).
Defined.

(** ** Instances for [main] and [readFile] *)

Lemma main_exits_or_spins_witness :
  length ["1"; "2"; "4"; "5"] < 10
  ∧ session greet greet 10 0 ["1"; "2"; "4"; "5"]
    = main greet greet ["1"; "2"; "4"; "5"]
  ∧ (main greet greet ["1"; "2"; "4"; "5"]).2 = ByExit.
Proof.
  assert (length ["1"; "2"; "4"; "5"] < 10) as Hlen by (simpl; lia).
  destruct (main_exits_or_spins greet greet ["1"; "2"; "4"; "5"] 10 Hlen)
    as [H _].
  split; [exact Hlen|]. split; [exact H|reflexivity].
Defined.

Lemma main_starves_without_choice_witness :
  forallb (λ line, negb (valid_choice line)) ["0"; "abc"; ""] = true
  ∧ main greet greet ["0"; "abc"; ""] = ([], BySpinning).
Proof.
  split; [reflexivity|].
  exact (main_starves_without_choice greet greet ["0"; "abc"; ""] eq_refl).
Defined.

Lemma main_exit_without_tick_witness :
  forallb (λ line, negb (valid_choice line)) ["x"] = true
  ∧ main greet greet (["x"] ++ "5" :: ["1"; "2"]) = ([], ByExit).
Proof.
  split; [reflexivity|].
  exact (main_exit_without_tick greet greet ["x"] ["1"; "2"] eq_refl).
Defined.

Lemma unknown_choice_only_ticks_witness :
  valid_choice "23" = true
  ∧ valid_mode "1" = true
  ∧ iteration greet greet 0 ["23"; "1"; "5"] = Ticked [CallRun] 0 ["5"].
Proof.
  assert ("23" ∉ ["1"; "2"; "3"; "4"; "5"]) as Hnot.
  { rewrite !not_elem_of_cons. repeat split; try discriminate.
    apply not_elem_of_nil. }
  split; [reflexivity|]. split; [reflexivity|].
  exact (unknown_choice_only_ticks greet greet 0 "23" "1" ["5"]
           eq_refl Hnot eq_refl).
Defined.

Lemma main_leaves_nothing_pending_witness :
  driver_calls overlapping_appends
  = (session greet greet 2 0 ["1"; "2"; "1"; "2"]).1
  ∧ Events (loop (exec overlapping_appends boot)) = [].
Proof.
  split; [reflexivity|].
  exact (main_leaves_nothing_pending greet greet 2 ["1"; "2"; "1"; "2"]
           overlapping_appends boot eq_refl eq_refl).
Defined.

Lemma main_keys_never_repeat_witness :
  (Z.of_nat (length ["1"; "2"; "2"; "1"; "3"; "1"]) < 2 ^ 63)%Z
  ∧ registered_keys
      (session greet greet 5 0 ["1"; "2"; "2"; "1"; "3"; "1"]).1
    = ["hello-0"; "read-file-1"; "fetch-from-api-2"]
  ∧ NoDup (registered_keys
             (session greet greet 5 0 ["1"; "2"; "2"; "1"; "3"; "1"]).1).
Proof.
  assert (Z.of_nat (length ["1"; "2"; "2"; "1"; "3"; "1"]) < 2 ^ 63)%Z
    as Hlen by reflexivity.
  split; [exact Hlen|]. split; [reflexivity|].
  exact (main_keys_never_repeat greet greet 5
           ["1"; "2"; "2"; "1"; "3"; "1"] Hlen).
Defined.

Lemma readFile_keeps_existing_witness :
  is_Some (nodes {| nodes := {[ "hello.txt" := RegularFile false true "hi" ]};
                    free := 64 |} !! "hello.txt")
  ∧ (readFile "hello.txt"
       {| nodes := {[ "hello.txt" := RegularFile false true "hi" ]};
          free := 64 |}).1.2
    = {| nodes := {[ "hello.txt" := RegularFile false true "hi" ]};
         free := 64 |}.
Proof.
  assert (is_Some
            (nodes {| nodes := {[ "hello.txt" := RegularFile false true "hi" ]};
                      free := 64 |} !! "hello.txt")) as Hn
    by (eexists; vm_compute; reflexivity).
  split; [exact Hn|].
  exact (readFile_keeps_existing "hello.txt" _ Hn).
Defined.

Lemma readFile_reports_create_failure_witness :
  nodes {| nodes := {[ "hello.txt" := Directory ]}; free := 64 |}
    !! "hello.txt" = Some Directory
  ∧ (readFile "hello.txt"
       {| nodes := {[ "hello.txt" := Directory ]}; free := 64 |}).1.1
    = "Error creating file: open hello.txt: is a directory".
Proof.
  assert (nodes {| nodes := {[ "hello.txt" := Directory ]}; free := 64 |}
            !! "hello.txt" = Some Directory) as Hn
    by (vm_compute; reflexivity).
  split; [exact Hn|].
  rewrite (readFile_reports_create_failure "hello.txt" _ Directory Hn)
    by discriminate.
  reflexivity.
Defined.

Lemma readFile_always_tries_create_witness :
  os_ReadFile "hello.txt" full_disk
  = inr (PathError "open" "hello.txt" ENOENT)
  ∧ os_IsExist (PathError "open" "hello.txt" ENOENT) = false
  ∧ (readFile "hello.txt" full_disk).2 = ["Exists: false" +:+ newline].
Proof.
  assert (os_ReadFile "hello.txt" full_disk
          = inr (PathError "open" "hello.txt" ENOENT)) as Hr
    by (vm_compute; reflexivity).
  destruct (readFile_always_tries_create "hello.txt" full_disk) as [Ho He].
  split; [exact Hr|]. split; [exact (He _ Hr)|].
  rewrite Ho, Hr. reflexivity.
Defined.

(** ** Menu entry 1, and a nil handler on the asynchronous path *)

Lemma valid_mode_spec (mode : string) :
  valid_mode mode = true ↔ mode = "1" ∨ mode = "2".
Proof.
  unfold valid_mode.
  rewrite andb_true_iff, orb_true_iff, negb_true_iff, !String.eqb_eq,
    String.eqb_neq.
  split; [tauto|]. intros [->| ->]; split; auto; discriminate.
Qed.

(** X21. Menu entry 1 followed by an accepted mode makes exactly the
    three calls register, submit, tick for the greeting under the key
    "hello-" followed by the counter, and moves the counter on by one;
    the event is asynchronous exactly when the mode line is "2". *)
Theorem menu_entry_one (rf ff : string → string) (eventID : Z)
    (mode : string) (rest : list string) :
  valid_mode mode = true →
  iteration rf ff eventID ("1" :: mode :: rest)
  = Ticked (menu_hello eventID (isAsync mode)) (increment eventID) rest
  ∧ (isAsync mode = true ↔ mode = "2").
Proof.
  intros Hm. split.
  - unfold iteration. simpl. by rewrite Hm.
  - unfold isAsync. apply String.eqb_eq.
Qed.

Lemma menu_entry_one_witness :
  valid_mode "2" = true
  ∧ iteration greet greet 0 ["1"; "2"; "5"]
    = Ticked (menu_hello 0 true) (increment 0) ["5"].
Proof.
  split; [reflexivity|].
  destruct (menu_entry_one greet greet 0 "2" ["5"] eq_refl) as [H _].
  exact H.
Defined.

(** X22. An asynchronous event whose key is registered with the nil
    function starts a goroutine that ends at its first step: nothing is
    appended to the completed queue, and nothing is printed for the
    event beyond the announcement and the blocked line. *)
Theorem async_nil_handler_is_dropped (event : Event) (rest : list Event)
    (m : Machine) :
  Events (loop m) = event :: rest →
  IsAsync event = true →
  Handlers (loop m) !! Key event = Some None →
  let i := length (goroutines m) in
  let m' := exec [CallRun; Go i] m in
  goroutines m' = goroutines m ++ [GDone]
  ∧ ProcessedEvents (loop m') = tail (ProcessedEvents (loop m))
  ∧ stdout m'
    = stdout m ++ [ReceivedEvent (Key event); LoopBlocked]
      ++ (OutputForEvent <$> take 1 (ProcessedEvents (loop m)))
  ∧ Events (loop m') = rest.
Proof.
  intros HE Hasync HH i m'. subst m' i. cbn [exec exec_action].
  rewrite (run_head event rest m HE).
  unfold dispatch_spawns, dispatch_lines.
  rewrite (exists_handler_Some _ _ _ HH), Hasync. cbn [andb app].
  set (m0 := {| loop := _; goroutines := _; stdout := _ |}).
  assert (goroutines (run_drain m0) = goroutines m ++ [GStart event]) as Hg
    by (by rewrite run_drain_goroutines).
  assert (ProcessedEvents (loop (run_drain m0))
          = tail (ProcessedEvents (loop m))) as Hp
    by (by rewrite run_drain_ProcessedEvents).
  assert (stdout (run_drain m0)
          = stdout m ++ [ReceivedEvent (Key event); LoopBlocked]
            ++ (OutputForEvent <$> take 1 (ProcessedEvents (loop m)))) as Ho
    by (rewrite run_drain_stdout; subst m0; simpl; by rewrite <- app_assoc).
  assert (Events (loop (run_drain m0)) = rest) as Hq
    by (by rewrite run_drain_Events).
  assert (Handlers (loop (run_drain m0)) !! Key event = Some None) as HH'
    by (by rewrite run_drain_Handlers).
  destruct (run_drain m0) as [e1 g1 o1]. simpl in *. subst g1.
  rewrite go_step_last. simpl. unfold handler_of. rewrite HH'. simpl.
  done.
Qed.

Lemma async_nil_handler_is_dropped_witness :
  Events (loop (exec [CallOn "job" None;
                      CallDispatch {| Key := "job"; Data := "payload";
                                      IsAsync := true |}] boot))
  = [{| Key := "job"; Data := "payload"; IsAsync := true |}]
  ∧ stdout (exec [CallRun; Go 0]
              (exec [CallOn "job" None;
                     CallDispatch {| Key := "job"; Data := "payload";
                                     IsAsync := true |}] boot))
    = [ReceivedEvent "job"; LoopBlocked]
  ∧ ProcessedEvents
      (loop (exec [CallRun; Go 0]
               (exec [CallOn "job" None;
                      CallDispatch {| Key := "job"; Data := "payload";
                                      IsAsync := true |}] boot))) = [].
Proof.
  split; [reflexivity|].
  assert (Handlers (loop (exec [CallOn "job" None;
                      CallDispatch {| Key := "job"; Data := "payload";
                                      IsAsync := true |}] boot))
            !! "job" = Some None) as HH by (vm_compute; reflexivity).
  destruct (async_nil_handler_is_dropped
              {| Key := "job"; Data := "payload"; IsAsync := true |} []
              (exec [CallOn "job" None;
                     CallDispatch {| Key := "job"; Data := "payload";
                                     IsAsync := true |}] boot)
              eq_refl eq_refl HH) as (_ & Hp & Ho & _).
  split; [exact Ho|exact Hp].
Defined.

(** ** Results appended and results drained *)

Lemma run_cut_nil m : run_cut [] m = run m.
Proof.
  unfold run_cut, run, run_drain, drain_read, drain_write. simpl.
  by destruct (ProcessedEvents (loop (run_dispatch m))).
Qed.

Lemma exec_app sched1 : ∀ sched2 m,
  exec (sched1 ++ sched2) m = exec sched2 (exec sched1 m).
Proof. induction sched1 as [|a sched1 IH]; intros sched2 m; [done|]. apply IH. Qed.

Lemma drained_app sched1 : ∀ sched2 m,
  drained (sched1 ++ sched2) m
  = drained sched1 m ++ drained sched2 (exec sched1 m).
Proof.
  induction sched1 as [|a sched1 IH]; intros sched2 m; [done|]. simpl.
  by rewrite IH, app_assoc.
Qed.

(** Ticks alone drain the queue from its front. *)
Lemma drained_ticks n : ∀ m,
  drained (replicate n CallRun) m = take n (ProcessedEvents (loop m)).
Proof.
  induction n as [|n IH]; intros m; [done|]. simpl.
  rewrite IH, run_ProcessedEvents.
  by destruct (ProcessedEvents (loop m)); simpl; rewrite ?take_nil.
Qed.

(** With both queues empty, ticks change nothing. *)
Lemma ticks_idle n : ∀ m,
  Events (loop m) = [] → ProcessedEvents (loop m) = [] →
  exec (replicate n CallRun) m = m.
Proof.
  induction n as [|n IH]; intros m HE HP; [done|]. simpl.
  assert (run m = m) as ->; [|by apply IH].
  unfold run, run_dispatch. rewrite HE. unfold run_drain. by rewrite HP.
Qed.

Lemma times_take_absent r rs n : r ∉ rs → times r (take n rs) = 0.
Proof.
  intros Hr. unfold times. apply count_occ_not_In.
  intros Hin%list_elem_of_In. apply Hr.
  by apply (subseteq_take n rs).
Qed.

(** No call that [main] makes registers nil. *)
Lemma session_registers_handlers rf ff passes : ∀ eventID input,
  forallb registers_handler (session rf ff passes eventID input).1 = true.
Proof.
  induction passes as [|passes IH]; intros eventID input; [done|]. simpl.
  destruct (iteration rf ff eventID input) as [calls id' input'| |] eqn:Hit;
    [|done..].
  apply iteration_Ticked in Hit as (_ & choice & async & Hmenu & Hcalls).
  specialize (IH id' input').
  destruct (session rf ff passes id' input') as [later ending]. simpl in *.
  rewrite forallb_app, IH, Hcalls, forallb_app, andb_true_r. simpl.
  rewrite andb_true_r. revert Hmenu. unfold menu, submit.
  repeat (destruct (String.eqb choice _)); by intros [= <- _].
Qed.

(** C5. The second half of the claim, every result appended to the
    completed queue is drained exactly once, is what the code breaks,
    and by the unsynchronised queue of C7: under [main], with two
    asynchronous greetings,
    - a result that was stored once is drained twice when the other
      goroutine read the queue before a tick and wrote it after;
    - a result that was stored once is never drained, however many
      ticks follow, when both goroutines read the queue before either
      wrote it;
    - a result appended in one piece, with nothing between the
      goroutine's read and write, is never printed, however many ticks
      follow, when the append falls between the read and the write of
      the drain of a tick (a tick with nothing in between is [run]).
    In each case both goroutines have finished and both queues end
    empty. *)
Theorem appended_result_not_drained_once :
  (times (hello_result 0) (completed append_across_drain boot) = 1
   ∧ times (hello_result 0) (drained append_across_drain boot) = 2
   ∧ goroutines (exec append_across_drain boot) = [GDone; GDone]
   ∧ ProcessedEvents (loop (exec append_across_drain boot)) = [])
  ∧ (times (hello_result 0) (completed overlapping_appends boot) = 1
     ∧ goroutines (exec overlapping_appends boot) = [GDone; GDone]
     ∧ ∀ n,
         times (hello_result 0)
           (drained (overlapping_appends ++ replicate n CallRun) boot) = 0
         ∧ ProcessedEvents
             (loop (exec (overlapping_appends ++ replicate (S n) CallRun)
                      boot))
           = [])
  ∧ ((∀ m, run_cut [] m = run m)
     ∧ ProcessedEvents (loop (exec second_about_to_append boot))
       = [hello_result 0]
     ∧ ProcessedEvents
         (loop (exec [Go 1; Go 1] (exec second_about_to_append boot)))
       = [hello_result 0; hello_result 1]
     ∧ ∀ n,
         let m :=
           exec (replicate n CallRun)
             (run_cut [1; 1] (exec second_about_to_append boot)) in
         stdout m
         = [ReceivedEvent "hello-0"; LoopBlocked;
            ReceivedEvent "hello-1"; LoopBlocked;
            OutputForEvent (hello_result 0)]
         ∧ ProcessedEvents (loop m) = []
         ∧ Events (loop m) = []
         ∧ goroutines m = [GDone; GDone]).
Proof.
  split; [|split].
  - repeat split; vm_compute; reflexivity.
  - split; [vm_compute; reflexivity|]. split; [vm_compute; reflexivity|].
    intros n. rewrite drained_app, exec_app, drained_ticks.
    change (drained overlapping_appends boot) with (@nil EventResult).
    change (ProcessedEvents (loop (exec overlapping_appends boot)))
      with [hello_result 1].
    split.
    + simpl. apply times_take_absent.
      rewrite elem_of_cons, elem_of_nil. intros [H|[]]. discriminate H.
    + simpl. rewrite ticks_idle by (vm_compute; reflexivity).
      vm_compute. reflexivity.
  - split; [apply run_cut_nil|]. split; [vm_compute; reflexivity|].
    split; [vm_compute; reflexivity|].
    intros n m. subst m. rewrite ticks_idle by (vm_compute; reflexivity).
    repeat split; vm_compute; reflexivity.
Qed.
